(** * QCompress: the landscape-scan notebook of the quantum autoencoder

    A shallow embedding of [docs/run_landscape_scan.ipynb]: the qubit
    labeling cell, the four circuit builders, the cells that map the
    builders onto physical qubits and the parameter scan loop.  The engine
    the notebook imports ([qcompress.qae_engine], [qcompress.utils]) is not
    part of the sources at hand; what the development needs of it is
    modelled from the specification and marked as such. *)

From Stdlib Require Import QArith.
From stdpp Require Import gmap strings list sorting.

Close Scope Q_scope.

(** ** Abstract-to-physical qubit mappings *)

(** [q_in], [q_latent] and [q_refresh] are Python dicts from an abstract
    label to a physical qubit index: finite maps with string keys. *)

Module Utils.

(** Modelled from the spec: [qcompress.utils.merge_two_dicts] is missing
    from the sources.  The spec speaks of "the merged latent+refresh set";
    the merge of two dicts keeps every label of both, and on a label that
    both carry the entry of the second one is kept (dict update). *)
Definition merge_two_dicts (x y : gmap string nat) : gmap string nat :=
  y ∪ x.

(** The entries of a dict are compared by their labels only. *)
Definition label_le (e1 e2 : string * nat) : Prop := String.le e1.1 e2.1.

#[global] Instance label_le_dec : RelDecision label_le :=
  λ e1 e2, decide (String.le e1.1 e2.1).

(** Modelled from the spec: [qcompress.utils.order_qubit_labels] is
    missing from the sources.  "Ordering rule: sort abstract labels
    lexicographically before extracting physical indices." *)
Definition order_qubit_labels (d : gmap string nat) : list nat :=
  (merge_sort label_le (map_to_list d)).*2.

End Utils.
Import Utils.

(** A dict literal [{k1: v1, k2: v2, ...}]: the entries are stored from left
    to right, a repeated key keeps its last value. *)
Definition dict_of (entries : list (string * nat)) : gmap string nat :=
  foldl (λ d e, <[e.1 := e.2]> d) ∅ entries.

(** The physical indices a mapping hands out, one per label. *)
Definition indices (d : gmap string nat) : list nat := (map_to_list d).*2.

(** Data-model invariant of a qubit mapping: within one role group no
    physical index is given to two labels. *)
Definition qubit_mapping (d : gmap string nat) : Prop := NoDup (indices d).

#[global] Instance qubit_mapping_dec d : Decision (qubit_mapping d) :=
  NoDup_dec (indices d).

(** Two role groups share no physical index. *)
Definition disjoint_indices (d1 d2 : gmap string nat) : Prop :=
  Forall (λ i, i ∉ indices d2) (indices d1).

#[global] Instance disjoint_indices_dec d1 d2 :
  Decision (disjoint_indices d1 d2) :=
  Forall_dec (λ i, i ∉ indices d2) (indices d1).

(** No physical qubit carries two roles. *)
Definition role_disjoint (q_in q_latent q_refresh : gmap string nat) : Prop :=
  disjoint_indices q_in q_latent ∧
  disjoint_indices q_in q_refresh ∧
  disjoint_indices q_latent q_refresh.

#[global] Instance role_disjoint_dec q_in q_latent q_refresh :
  Decision (role_disjoint q_in q_latent q_refresh) :=
  and_dec _ (and_dec _ _).

(** ** The qubit labeling cell *)

Record labeling := Labeling {
  compression_indices : list nat;
  recovery_indices : list nat
}.

(** <<
    compression_indices = order_qubit_labels(q_in).tolist()
    q_out = merge_two_dicts(q_latent, q_refresh)
    recovery_indices = order_qubit_labels(q_out).tolist()
    if not reset:
        recovery_indices = recovery_indices[::-1]
    >> *)
Definition qubit_labeling (reset : bool)
    (q_in q_latent q_refresh : gmap string nat) : labeling :=
  let compression_indices := order_qubit_labels q_in in
  let q_out := merge_two_dicts q_latent q_refresh in
  let recovery_indices := order_qubit_labels q_out in
  let recovery_indices :=
    if negb reset then reverse recovery_indices else recovery_indices in
  Labeling compression_indices recovery_indices.

(** The settings of the demo. *)
Module Demo.
Definition q_in : gmap string nat := dict_of [("q0", 0); ("q1", 1)].
Definition q_latent : gmap string nat := dict_of [("q1", 1)].
Definition q_refresh : gmap string nat := dict_of [("q2", 2)].
Definition trash_training : bool := false.
Definition reset : bool := false.
Definition n_shots : nat := 5000.
End Demo.

(** ** Gates, programs and the object store *)

(** The two pyquil gates the notebook uses.  Rotation angles are Python
    floats; they are modelled by exact rationals, rounding is left out. *)
Inductive gate :=
  | RY (angle : Q) (qubit : nat)
  | CNOT (control target : nat).

(** Python passes lists and programs by reference.  The store holds the
    three kinds of objects the notebook creates: a list of floats (a data
    sample [phi] or a parameter vector [theta]), a list of physical qubit
    indices, and a pyquil [Program] with its instruction sequence. *)
Inductive obj :=
  | ParamList (xs : list Q)
  | IndexList (qs : list nat)
  | ProgramObj (gs : list gate).

(** Objects are addressed by their position in the store. *)
Abbreviation loc := nat.

Inductive exn := IndexError | TypeError | ConfigurationError.

Inductive outcome (A : Type) :=
  | Ok (a : A)
  | Raise (e : exn).
Arguments Ok {A} a.
Arguments Raise {A} e.

(** The world a cell runs in: the objects allocated so far, by address, and
    the number of circuit executions issued to the backend. *)
Record world := World {
  heap : list obj;
  backend_calls : nat
}.

Definition set_heap (h : list obj) (w : world) : world :=
  World h (backend_calls w).

(** Computations that read and extend the store and may raise. *)
Definition M (A : Type) : Type := world → outcome A * world.

#[global] Instance M_ret : MRet M := λ A a w, (Ok a, w).

#[global] Instance M_bind : MBind M := λ A B k m w,
  match m w with
  | (Ok a, w') => k a w'
  | (Raise e, w') => (Raise e, w')
  end.

Definition raise {A} (e : exn) : M A := λ w, (Raise e, w).

(** [Program(g1, ..., gn)]: a new program object. *)
Definition new_Program (gs : list gate) : M loc := λ w,
  (Ok (length (heap w)), set_heap (heap w ++ [ProgramObj gs]) w).

(** [[x1, ..., xn]]: a new list of floats. *)
Definition new_ParamList (xs : list Q) : M loc := λ w,
  (Ok (length (heap w)), set_heap (heap w ++ [ParamList xs]) w).

(** [phi[i]] on a list of floats, for a constant [i >= 0]. *)
Definition getitem_param (l : loc) (i : nat) : M Q := λ w,
  match heap w !! l with
  | Some (ParamList xs) =>
      match xs !! i with
      | Some x => (Ok x, w)
      | None => (Raise IndexError, w)
      end
  | _ => (Raise TypeError, w)
  end.

(** [qubit_indices[i]] on a list of qubit indices. *)
Definition getitem_index (l : loc) (i : nat) : M nat := λ w,
  match heap w !! l with
  | Some (IndexList qs) =>
      match qs !! i with
      | Some q => (Ok q, w)
      | None => (Raise IndexError, w)
      end
  | _ => (Raise TypeError, w)
  end.

(** [circuit += p]: the instructions of [p] are appended to the program
    object [circuit] is bound to. *)
Definition iadd (circuit p : loc) : M unit := λ w,
  match heap w !! circuit, heap w !! p with
  | Some (ProgramObj gs), Some (ProgramObj hs) =>
      (Ok (), set_heap (<[circuit := ProgramObj (gs ++ hs)]> (heap w)) w)
  | _, _ => (Raise TypeError, w)
  end.

(** ** The circuit builders *)

(** <<
    circuit = Program()
    circuit += Program(RY(phi[0], qubit_indices[1]))
    circuit += Program(CNOT(qubit_indices[1], qubit_indices[0]))
    return circuit
    >> *)
Definition _state_prep_circuit (phi qubit_indices : loc) : M loc :=
  circuit ← new_Program [];
  a ← getitem_param phi 0;
  q ← getitem_index qubit_indices 1;
  p ← new_Program [RY a q];
  iadd circuit p;;
  c ← getitem_index qubit_indices 1;
  t ← getitem_index qubit_indices 0;
  p ← new_Program [CNOT c t];
  iadd circuit p;;
  mret circuit.

(** <<
    circuit = Program()
    circuit += Program(CNOT(qubit_indices[1], qubit_indices[0]))
    circuit += Program(RY(-phi[0], qubit_indices[1]))
    return circuit
    >> *)
Definition _state_prep_circuit_dag (phi qubit_indices : loc) : M loc :=
  circuit ← new_Program [];
  c ← getitem_index qubit_indices 1;
  t ← getitem_index qubit_indices 0;
  p ← new_Program [CNOT c t];
  iadd circuit p;;
  a ← getitem_param phi 0;
  q ← getitem_index qubit_indices 1;
  p ← new_Program [RY (- a)%Q q];
  iadd circuit p;;
  mret circuit.

(** <<
    circuit = Program()
    circuit += Program(RY(-theta[0]/2, qubit_indices[0]))
    circuit += Program(CNOT(qubit_indices[1], qubit_indices[0]))
    return circuit
    >> *)
Definition _training_circuit (theta qubit_indices : loc) : M loc :=
  circuit ← new_Program [];
  a ← getitem_param theta 0;
  q ← getitem_index qubit_indices 0;
  p ← new_Program [RY (- a / 2)%Q q];
  iadd circuit p;;
  c ← getitem_index qubit_indices 1;
  t ← getitem_index qubit_indices 0;
  p ← new_Program [CNOT c t];
  iadd circuit p;;
  mret circuit.

(** <<
    circuit = Program()
    circuit += Program(CNOT(qubit_indices[1], qubit_indices[0]))
    circuit += Program(RY(theta[0]/2, qubit_indices[0]))
    return circuit
    >> *)
Definition _training_circuit_dag (theta qubit_indices : loc) : M loc :=
  circuit ← new_Program [];
  c ← getitem_index qubit_indices 1;
  t ← getitem_index qubit_indices 0;
  p ← new_Program [CNOT c t];
  iadd circuit p;;
  a ← getitem_param theta 0;
  q ← getitem_index qubit_indices 0;
  p ← new_Program [RY (a / 2)%Q q];
  iadd circuit p;;
  mret circuit.

(** The instruction sequence of the program a computation returns. *)
Definition built (m : M loc) (w : world) : outcome (list gate) :=
  match m w with
  | (Ok c, w') =>
      match heap w' !! c with
      | Some (ProgramObj gs) => Ok gs
      | _ => Raise TypeError
      end
  | (Raise e, _) => Raise e
  end.

(** ** Mapping the builders onto physical qubits *)

(** The index list an inverse circuit is built on: the cells below hand
    [compression_indices] to the daggered builders under [reset] and
    [recovery_indices] otherwise. *)
Definition decode_side {A} (reset : bool)
    (compression_indices recovery_indices : A) : A :=
  if reset then compression_indices else recovery_indices.

(** One round of the data generation loop:
    <<
    state_prep_circuit = _state_prep_circuit([angle], compression_indices)
    if reset:
        state_prep_circuit_dag = _state_prep_circuit_dag([angle], compression_indices)
    else:
        state_prep_circuit_dag = _state_prep_circuit_dag([angle], recovery_indices)
    >> *)
Definition map_state_prep (reset : bool)
    (compression_indices recovery_indices : loc) (angle : Q) : M (loc * loc) :=
  sample ← new_ParamList [angle];
  state_prep_circuit ← _state_prep_circuit sample compression_indices;
  state_prep_circuit_dag ←
    (if reset then
       sample ← new_ParamList [angle];
       _state_prep_circuit_dag sample compression_indices
     else
       sample ← new_ParamList [angle];
       _state_prep_circuit_dag sample recovery_indices);
  mret (state_prep_circuit, state_prep_circuit_dag).

(** <<
    for angle in phi_list:
        ...
        list_SP_circuits.append(state_prep_circuit)
        list_SP_circuits_dag.append(state_prep_circuit_dag)
    >> *)
Fixpoint data_generation (reset : bool)
    (compression_indices recovery_indices : loc) (phi_list : list Q)
    (list_SP_circuits list_SP_circuits_dag : list loc)
    : M (list loc * list loc) :=
  match phi_list with
  | [] => mret (list_SP_circuits, list_SP_circuits_dag)
  | angle :: phi_list =>
      '(sp, sp_dag) ← map_state_prep reset compression_indices
                        recovery_indices angle;
      data_generation reset compression_indices recovery_indices phi_list
        (list_SP_circuits ++ [sp]) (list_SP_circuits_dag ++ [sp_dag])
  end.

(** [training_circuit = lambda param : _training_circuit(param, compression_indices)] *)
Definition training_circuit (compression_indices : loc) : loc → M loc :=
  λ param, _training_circuit param compression_indices.

(** <<
    if reset:
        training_circuit_dag = lambda param : _training_circuit_dag(param, compression_indices)
    else:
        training_circuit_dag = lambda param : _training_circuit_dag(param, recovery_indices)
    >> *)
Definition training_circuit_dag (reset : bool)
    (compression_indices recovery_indices : loc) : loc → M loc :=
  if reset then λ param, _training_circuit_dag param compression_indices
  else λ param, _training_circuit_dag param recovery_indices.

(** ** The parameter scan *)

Section Scan.

(** [qae.compute_loss_function]: the engine's mean training loss at a
    parameter vector, a method of the QAE instance. *)
Variable compute_loss_function : loc → M Q.

(** <<
    training_losses = []
    for angle in theta_scan:
        angle = [angle]
        training_loss = qae.compute_loss_function(angle)
        training_losses.append(training_loss)
    >> *)
Fixpoint theta_scan_loop (theta_scan : list Q) (training_losses : list Q)
    : M (list Q) :=
  match theta_scan with
  | [] => mret training_losses
  | angle :: theta_scan =>
      angle ← new_ParamList [angle];
      training_loss ← compute_loss_function angle;
      theta_scan_loop theta_scan (training_losses ++ [training_loss])
  end.

(** The landscape: the candidates against the losses, position by
    position, as the plot cell pairs them. *)
Definition landscape_scan (theta_scan : list Q) : M (list (Q * Q)) :=
  training_losses ← theta_scan_loop theta_scan [];
  mret (zip theta_scan training_losses).

(** The mean training loss at one candidate, evaluated in a given world. *)
Definition loss_at (angle : Q) : M Q :=
  angle ← new_ParamList [angle];
  compute_loss_function angle.

End Scan.

(** ** The engine behind the notebook *)

Module QAE.

(** Modelled from the spec: the measurement outcome of one execution,
    "a mapping from observed bitstring to occurrence count; total counts
    sum to N".  The backend that produces it is outside the sources. *)
Definition total_counts (counts : gmap (list bool) nat) : nat :=
  map_fold (λ _ c acc, c + acc) 0 counts.

(** Modelled from the spec: the counts of an execution with [n_shots]
    shots "sum to N". *)
Definition well_formed_outcome (counts : gmap (list bool) nat)
    (n_shots : nat) : Prop :=
  total_counts counts = n_shots.

(** Modelled from the spec: the number of occurrences of the target
    outcome, zero when it was never observed. *)
Definition target_count (counts : gmap (list bool) nat)
    (target : list bool) : nat :=
  default 0 (counts !! target).

(** Modelled from the spec: "the empirical probability is
    [target_count / n_shots]". *)
Definition empirical_probability (target_count n_shots : nat) : Q :=
  (inject_Z (Z.of_nat target_count) / inject_Z (Z.of_nat n_shots))%Q.

(** Modelled from the spec: the loss estimator of
    [qcompress.qae_engine], which is missing from the sources.  "The
    reference implementation uses the negative of that empirical
    probability"; "if [n_shots] is 0 or the target outcome never appears,
    the estimator returns a loss of 0 rather than failing". *)
Definition sample_loss (counts : gmap (list bool) nat)
    (target : list bool) (n_shots : nat) : Q :=
  if decide (n_shots = 0 ∨ target_count counts target = 0) then 0%Q
  else (- empirical_probability (target_count counts target) n_shots)%Q.

(** Modelled from the spec: "aggregate per-sample losses (mean) across a
    batch".  The spec is silent on an empty batch; the quotient by zero is
    zero here. *)
Definition mean (losses : list Q) : Q :=
  (foldr Qplus 0 losses / inject_Z (Z.of_nat (length losses)))%Q.

(** Modelled from the spec: what a QAE instance is configured with, as far
    as the training loop reads it: the parameter count the configured
    ansatz expects ("the number of free parameters in the training circuit
    ansatz"), the shot count, the target outcome and the training split. *)
Record quantum_autoencoder := {
  n_params : nat;
  n_shots : nat;
  target : list bool;
  train_indices : list nat
}.

Section Engine.

(** The backend adapter, [execute(circuit, shots) -> MeasurementOutcome],
    an external collaborator: its answer may differ from call to call,
    so it also sees how many executions came before. *)
Variable execute : nat → list gate → nat → gmap (list bool) nat.

(** The circuit builder's composition of the full encode-decode pipeline
    for a parameter vector and a data sample; the spec leaves its gate
    sequence to the training mode. *)
Variable build_circuit : loc → nat → M loc.

(** The pluggable optimizer:
    [minimize(objective, initial_params) -> (final_params, final_loss)]. *)
Variable minimize : (loc → M Q) → loc → M (loc * Q).

Variable qae : quantum_autoencoder.

(** Modelled from the spec: one blocking execution of a built circuit. *)
Definition run_backend (circuit : loc) (shots : nat)
    : M (gmap (list bool) nat) := λ w,
  match heap w !! circuit with
  | Some (ProgramObj gs) =>
      (Ok (execute (backend_calls w) gs shots),
       World (heap w) (S (backend_calls w)))
  | _ => (Raise TypeError, w)
  end.

(** Modelled from the spec: "execute a built circuit via the backend
    adapter for a fixed shot count and reduce the resulting measurement
    outcome into a scalar loss for one data sample". *)
Definition estimate_loss (circuit : loc) : M Q :=
  counts ← run_backend circuit (n_shots qae);
  mret (sample_loss counts (target qae) (n_shots qae)).

(** Modelled from the spec: "a malformed ParameterVector length
    (mismatched to the ansatz's expected parameter count) is a fatal
    configuration error raised before any backend call". *)
Definition check_parameters (theta : loc) : M unit := λ w,
  match heap w !! theta with
  | Some (ParamList xs) =>
      if decide (length xs = n_params qae) then (Ok (), w)
      else (Raise ConfigurationError, w)
  | _ => (Raise TypeError, w)
  end.

(** Modelled from the spec: one execution per (parameter, sample)
    combination, sequentially, over the training split. *)
Fixpoint sample_losses (theta : loc) (samples : list nat) : M (list Q) :=
  match samples with
  | [] => mret []
  | i :: samples =>
      circuit ← build_circuit theta i;
      loss ← estimate_loss circuit;
      losses ← sample_losses theta samples;
      mret (loss :: losses)
  end.

(** Modelled from the spec: the mean loss over the training split at
    the given parameters. *)
Definition compute_loss_function (theta : loc) : M Q :=
  check_parameters theta;;
  losses ← sample_losses theta (train_indices qae);
  mret (mean losses).

(** Modelled from the spec: optimization mode, the classical optimizer
    driven by the mean training loss from an initial parameter vector. *)
Definition train (initial_guess : loc) : M (loc * Q) :=
  check_parameters initial_guess;;
  minimize compute_loss_function initial_guess.

End Engine.

End QAE.
Import QAE.

(** ** Gate sequences and their inverses *)

(** The inverse of a gate: a rotation by the negated angle; CNOT is its own
    inverse. *)
Definition gate_dag (g : gate) : gate :=
  match g with
  | RY a q => RY (- a)%Q q
  | CNOT c t => CNOT c t
  end.

(** The daggered circuit: "the reverse gate sequence with negated rotation
    parameters". *)
Definition dagger (gs : list gate) : list gate := reverse (gate_dag <$> gs).

Definition outcome_map {A B} (f : A → B) (r : outcome A) : outcome B :=
  match r with
  | Ok a => Ok (f a)
  | Raise e => Raise e
  end.

(** Two adjacent gates cancel when they act on the same qubits and are
    inverse to each other: two equal CNOTs, or two rotations whose angles
    sum to zero. *)
Inductive inverse_pair : gate → gate → Prop :=
  | inverse_RY a b q : (a + b == 0)%Q → inverse_pair (RY a q) (RY b q)
  | inverse_CNOT c t : inverse_pair (CNOT c t) (CNOT c t).

(** One cancellation step inside a gate sequence. *)
Inductive cancel_step : list gate → list gate → Prop :=
  | cancel_adjacent l1 g h l2 :
      inverse_pair g h → cancel_step (l1 ++ g :: h :: l2) (l1 ++ l2).

(** A gate sequence cancels to the identity when cancellation steps take it
    to the empty circuit. *)
Definition cancels_to_identity (gs : list gate) : Prop := rtc cancel_step gs [].

(** ** Purity of a builder *)

Definition builder := loc → loc → M loc.

Definition builders : list builder :=
  [_state_prep_circuit; _state_prep_circuit_dag;
   _training_circuit; _training_circuit_dag].

(** A builder is a pure construction when a call on a parameter list with
    its parameter and an index list with two qubits returns a program, when
    any call leaves every object that existed before it as it was (its
    arguments and all programs built earlier among them) and issues no
    execution, when the program a call returns did not exist before, and
    when calls yield the same gate sequence whenever their arguments hold
    the same values. *)
Record pure_construction (b : builder) : Prop := {
  pure_returns : ∀ p i w xs qs,
    heap w !! p = Some (ParamList xs) → heap w !! i = Some (IndexList qs) →
    xs ≠ [] → 2 ≤ length qs →
    ∃ c gs,
      (b p i w).1 = Ok c ∧
      heap w !! c = None ∧
      heap (b p i w).2 !! c = Some (ProgramObj gs) ∧
      heap (b p i w).2 !! p = Some (ParamList xs) ∧
      heap (b p i w).2 !! i = Some (IndexList qs);
  pure_frame : ∀ p i w,
    heap w `prefix_of` heap (b p i w).2 ∧
    backend_calls (b p i w).2 = backend_calls w;
  pure_fresh : ∀ p i w c,
    (b p i w).1 = Ok c →
    length (heap w) ≤ c ∧ ∃ gs, heap (b p i w).2 !! c = Some (ProgramObj gs);
  pure_functional : ∀ p1 i1 w1 p2 i2 w2 xs qs,
    heap w1 !! p1 = Some (ParamList xs) → heap w2 !! p2 = Some (ParamList xs) →
    heap w1 !! i1 = Some (IndexList qs) → heap w2 !! i2 = Some (IndexList qs) →
    built (b p1 i1) w1 = built (b p2 i2) w2
}.

(** ** Worlds and stubs to run the definitions on *)

(** A world with a data sample, the compression indices and the recovery
    indices of the demo. *)
Definition demo_world : world :=
  World [ParamList [(1#3)%Q]; IndexList [0; 1]; IndexList [2; 1]] 0.

(** The same world under reset: the recovery indices are left unreversed. *)
Definition reset_world : world :=
  World [ParamList [(1#3)%Q]; IndexList [0; 1]; IndexList [1; 2]] 0.

(** A backend stub: every shot yields the outcome 00. *)
Definition stub_execute : nat → list gate → nat → gmap (list bool) nat :=
  λ _ _ shots, {[ [false; false] := shots ]}.

(** A QAE instance with a one-parameter ansatz, four shots and the first
    data sample as its training split. *)
Definition stub_qae : quantum_autoencoder :=
  {| n_params := 1; n_shots := 4; target := [false; false];
     train_indices := [0] |}.

(** A world with a two-entry parameter vector, an index list and a built
    program. *)
Definition stub_world : world :=
  World [ParamList [(1#3)%Q; (1#5)%Q]; IndexList [0; 1];
         ProgramObj [RY (1#3) 1; CNOT 1 0]] 0.

(** An optimizer stub that evaluates the objective once. *)
Definition stub_minimize : (loc → M Q) → loc → M (loc * Q) :=
  λ objective initial, loss ← objective initial; mret (initial, loss).

(** A pipeline stub: the training circuit alone, on the index list at
    address 1. *)
Definition stub_build_circuit : loc → nat → M loc :=
  λ theta _, _training_circuit theta 1.

(** The qubits a gate acts on. *)
Definition qubits_of (g : gate) : list nat :=
  match g with
  | RY _ q => [q]
  | CNOT c t => [c; t]
  end.

(** A later world extends an earlier one when every object of the earlier
    one is still in place and no execution was issued in between. *)
Definition extends (w0 w : world) : Prop :=
  heap w0 `prefix_of` heap w ∧ backend_calls w = backend_calls w0.

(** A loss function stub that issues two executions and returns the loss
    0. *)
Definition stub_counting_loss : loc → M Q :=
  λ _ w, (Ok 0%Q, World (heap w) (backend_calls w + 2)).

(** A loss function stub that fails on a negative parameter. *)
Definition stub_partial_loss : loc → M Q := λ theta w,
  match heap w !! theta with
  | Some (ParamList [x]) =>
      if Qle_bool 0 x then (Ok (- x)%Q, w) else (Raise ConfigurationError, w)
  | _ => (Raise TypeError, w)
  end.

(** ** Reasoning about computations *)

(** [wp m Q w]: running [m] in the world [w] ends in an outcome and a world
    that satisfy [Q]. *)
Definition wp {A} (m : M A) (Q : outcome A → world → Prop) (w : world) : Prop :=
  Q (m w).1 (m w).2.

(** The program [c] is under construction since the world [w0]: whatever
    existed in [w0] is still as it was, nothing was executed, and [c] is a
    program allocated later. *)
Definition building (w0 : world) (c : loc) (w : world) : Prop :=
  heap w0 `prefix_of` heap w ∧
  backend_calls w = backend_calls w0 ∧
  length (heap w0) ≤ c ∧
  ∃ gs, heap w !! c = Some (ProgramObj gs).

(** What a call of a builder in the world [w0] leaves behind. *)
Definition frame_post (w0 : world) (r : outcome loc) (w : world) : Prop :=
  heap w0 `prefix_of` heap w ∧
  backend_calls w = backend_calls w0 ∧
  match r with
  | Ok c => length (heap w0) ≤ c ∧ ∃ gs, heap w !! c = Some (ProgramObj gs)
  | Raise _ => True
  end.

(** While a builder called in [w0] runs: the objects of [w0] are in place
    and the program under construction, [c], holds the gates [gs]. *)
Definition running (w0 : world) (c : loc) (gs : list gate) (w : world) : Prop :=
  heap w0 `prefix_of` heap w ∧
  c = length (heap w0) ∧
  heap w !! c = Some (ProgramObj gs).

(** The gate sequence read off an outcome, as [built] does. *)
Definition built_post (r : outcome loc) (w : world) : outcome (list gate) :=
  match r with
  | Ok c =>
      match heap w !! c with
      | Some (ProgramObj gs) => Ok gs
      | _ => Raise TypeError
      end
  | Raise e => Raise e
  end.

(** The item at a position of a list, or the error of indexing past its
    end. *)
Definition item {X} (xs : list X) (i : nat) : outcome X :=
  match xs !! i with
  | Some x => Ok x
  | None => Raise IndexError
  end.

(** * Properties *)

(** ** The demo *)

Example demo_labeling :
  qubit_labeling Demo.reset Demo.q_in Demo.q_latent Demo.q_refresh
  = Labeling [0; 1] [2; 1].
Proof. vm_compute. reflexivity. Qed.

Example demo_state_prep :
  built (_state_prep_circuit 0 1) demo_world = Ok [RY (1#3) 1; CNOT 1 0].
Proof. reflexivity. Qed.

Example demo_training_dag :
  built (_training_circuit_dag 0 2) demo_world = Ok [CNOT 1 2; RY ((1#3)/2) 2].
Proof. reflexivity. Qed.

(** The mappings of the demo give the physical qubit 1 two roles, input and
    latent. *)
Example demo_not_role_disjoint :
  ¬ role_disjoint Demo.q_in Demo.q_latent Demo.q_refresh.
Proof. apply (bool_decide_unpack _). vm_compute. exact I. Qed.

(** ** Qubit labeling *)

#[global] Instance label_le_total : Total label_le.
Proof. intros e1 e2. unfold label_le. apply total, _. Qed.

#[global] Instance label_le_trans : Transitive label_le.
Proof. intros e1 e2 e3. unfold label_le. apply transitivity. Qed.

Section labeling_facts.

Implicit Types d q : gmap string nat.

Lemma elem_of_indices d i : i ∈ indices d ↔ ∃ k, d !! k = Some i.
Proof.
  unfold indices. rewrite list_elem_of_fmap. split.
  - intros [[k j] [-> Hin]]. exists k. by apply elem_of_map_to_list.
  - intros [k Hk]. exists (k, i). split; [done|].
    by apply elem_of_map_to_list.
Qed.

(** A mapping that satisfies the invariant is injective. *)
Lemma qubit_mapping_inj d k1 k2 i :
  qubit_mapping d → d !! k1 = Some i → d !! k2 = Some i → k1 = k2.
Proof.
  unfold qubit_mapping, indices. intros Hnd H1 H2.
  apply elem_of_map_to_list in H1, H2.
  revert Hnd H1 H2. generalize (map_to_list d). intros l.
  induction l as [|[k j] l IH]; csimpl; [by intros _ ?%elem_of_nil|].
  intros [Hnotin Hnd]%NoDup_cons [E1|H1]%elem_of_cons [E2|H2]%elem_of_cons.
  - congruence.
  - exfalso. apply Hnotin. injection E1 as -> ->.
    apply list_elem_of_fmap. by exists (k2, j).
  - exfalso. apply Hnotin. injection E2 as -> ->.
    apply list_elem_of_fmap. by exists (k1, j).
  - by apply IH.
Qed.

Lemma qubit_mapping_intro d :
  (∀ k1 k2 i, d !! k1 = Some i → d !! k2 = Some i → k1 = k2) →
  qubit_mapping d.
Proof.
  intros Hinj. unfold qubit_mapping, indices.
  apply NoDup_fmap_2_strong; [|apply NoDup_map_to_list].
  intros [k1 i1] [k2 i2] H1%elem_of_map_to_list H2%elem_of_map_to_list.
  simpl. intros <-. f_equal. by eapply Hinj.
Qed.

(** The labels are listed in ascending order, each entry once. *)
Lemma order_qubit_labels_sorted d :
  ∃ es, es ≡ₚ map_to_list d ∧ StronglySorted label_le es ∧
        order_qubit_labels d = es.*2.
Proof.
  exists (merge_sort label_le (map_to_list d)). split_and!.
  - apply merge_sort_Permutation.
  - apply StronglySorted_merge_sort; apply _.
  - done.
Qed.

Lemma order_qubit_labels_indices d : order_qubit_labels d ≡ₚ indices d.
Proof.
  unfold order_qubit_labels, indices.
  by rewrite merge_sort_Permutation.
Qed.

Lemma elem_of_indices_merge x y i :
  i ∈ indices (merge_two_dicts x y) → i ∈ indices x ∨ i ∈ indices y.
Proof.
  rewrite !elem_of_indices. unfold merge_two_dicts.
  intros [k [Hk|[_ Hk]]%lookup_union_Some_raw]; eauto.
Qed.

Lemma disjoint_indices_elem d1 d2 i :
  disjoint_indices d1 d2 → i ∈ indices d1 → i ∈ indices d2 → False.
Proof.
  unfold disjoint_indices. rewrite Forall_forall. intros H Hi. by apply H.
Qed.

(** Merging two disjoint mappings keeps the invariant. *)
Lemma qubit_mapping_merge x y :
  qubit_mapping x → qubit_mapping y → disjoint_indices x y →
  qubit_mapping (merge_two_dicts x y).
Proof.
  intros Hx Hy Hdis. apply qubit_mapping_intro.
  unfold merge_two_dicts. intros k1 k2 i H1 H2.
  apply lookup_union_Some_raw in H1, H2.
  destruct H1 as [H1|[_ H1]], H2 as [H2|[_ H2]].
  - by eapply (qubit_mapping_inj y).
  - exfalso. apply (disjoint_indices_elem x y i Hdis);
      apply elem_of_indices; eauto.
  - exfalso. apply (disjoint_indices_elem x y i Hdis);
      apply elem_of_indices; eauto.
  - by eapply (qubit_mapping_inj x).
Qed.

(** A dict literal is the map of its entries, the later ones first. *)
Lemma dict_of_list_to_map es : dict_of es = list_to_map (reverse es).
Proof.
  unfold dict_of. induction es as [|[k i] es IH] using rev_ind; [done|].
  rewrite foldl_app, reverse_app. simpl. by rewrite IH.
Qed.

(** Writing the entries of a mapping in another order gives the same
    mapping. *)
Lemma dict_of_entries d es : es ≡ₚ map_to_list d → dict_of es = d.
Proof.
  intros Hperm. rewrite dict_of_list_to_map.
  rewrite <-(list_to_map_to_list d). apply list_to_map_proper.
  - rewrite reverse_Permutation, Hperm. apply NoDup_fst_map_to_list.
  - by rewrite reverse_Permutation.
Qed.

End labeling_facts.

(** C1: for qubit mappings that are role-disjoint (no physical index has two
    labels or two roles), the labeling cell yields compression and recovery
    sequences that share no index and repeat none; and the sequences depend
    on the mappings alone: writing the entries of the three dicts in any
    other order gives the same two sequences.  The mappings of the demo are
    not role-disjoint: index 1 is in both of its sequences. *)
Theorem qubit_labeling_no_duplicates (reset : bool)
    (q_in q_latent q_refresh : gmap string nat) :
  qubit_mapping q_in → qubit_mapping q_latent → qubit_mapping q_refresh →
  role_disjoint q_in q_latent q_refresh →
  let L := qubit_labeling reset q_in q_latent q_refresh in
  let D := qubit_labeling Demo.reset Demo.q_in Demo.q_latent Demo.q_refresh in
  NoDup (compression_indices L ++ recovery_indices L) ∧
  (∀ es_in es_latent es_refresh,
     es_in ≡ₚ map_to_list q_in →
     es_latent ≡ₚ map_to_list q_latent →
     es_refresh ≡ₚ map_to_list q_refresh →
     qubit_labeling reset (dict_of es_in) (dict_of es_latent)
       (dict_of es_refresh) = L) ∧
  compression_indices D = [0; 1] ∧ recovery_indices D = [2; 1].
Proof.
  intros Hin Hlat Href (Hil & Hir & Hlr).
  split; [|split; [|by vm_compute]].
  - assert (recovery_indices (qubit_labeling reset q_in q_latent q_refresh)
            ≡ₚ indices (merge_two_dicts q_latent q_refresh)) as Hrec.
    { simpl. destruct reset; simpl;
        rewrite ?reverse_Permutation; apply order_qubit_labels_indices. }
    rewrite Hrec. simpl. rewrite order_qubit_labels_indices.
    apply NoDup_app. split_and!.
    + exact Hin.
    + intros i Hi [Hj|Hj]%elem_of_indices_merge.
      * by apply (disjoint_indices_elem _ _ i Hil).
      * by apply (disjoint_indices_elem _ _ i Hir).
    + by apply qubit_mapping_merge.
  - intros es_in es_latent es_refresh E1 E2 E3.
    by rewrite (dict_of_entries _ _ E1), (dict_of_entries _ _ E2),
      (dict_of_entries _ _ E3).
Qed.

Lemma qubit_labeling_no_duplicates_witness :
  let q_in := dict_of [("q0", 0); ("q1", 1)] in
  let q_latent := dict_of [("q2", 2)] in
  let q_refresh := dict_of [("q3", 3)] in
  let L := qubit_labeling false q_in q_latent q_refresh in
  L = Labeling [0; 1] [3; 2] ∧
  NoDup (compression_indices L ++ recovery_indices L) ∧
  qubit_labeling false (dict_of [("q1", 1); ("q0", 0)]) q_latent q_refresh = L.
Proof.
  intros q_in q_latent q_refresh L.
  assert (qubit_mapping q_in) as Hin
    by (apply (bool_decide_unpack _); vm_compute; exact I).
  assert (qubit_mapping q_latent) as Hlat
    by (apply (bool_decide_unpack _); vm_compute; exact I).
  assert (qubit_mapping q_refresh) as Href
    by (apply (bool_decide_unpack _); vm_compute; exact I).
  assert (role_disjoint q_in q_latent q_refresh) as Hdis
    by (apply (bool_decide_unpack _); vm_compute; exact I).
  destruct (qubit_labeling_no_duplicates false q_in q_latent q_refresh
              Hin Hlat Href Hdis) as (Hnd & Hdet & _).
  split_and!.
  - vm_compute. reflexivity.
  - exact Hnd.
  - apply (Hdet [("q1", 1); ("q0", 0)] [("q2", 2)] [("q3", 3)]);
      vm_compute; auto using Permutation_swap.
Defined.

Lemma training_circuit_dag_decode_side reset (ci ri param : loc) :
  training_circuit_dag reset ci ri param
  = _training_circuit_dag param (decode_side reset ci ri).
Proof. by destruct reset. Qed.

Lemma map_state_prep_decode_side reset (ci ri : loc) angle :
  map_state_prep reset ci ri angle
  = (sample ← new_ParamList [angle];
     sp ← _state_prep_circuit sample ci;
     sp_dag ← (sample ← new_ParamList [angle];
               _state_prep_circuit_dag sample (decode_side reset ci ri));
     mret (sp, sp_dag)).
Proof. by destruct reset. Qed.

(** C2, as the code has it: without reset, [recovery_indices] is the
    reversal of the ascending-label ordering of the merged latent+refresh
    mapping and the daggered builders work on it; with reset,
    [recovery_indices] stays unreversed and the daggered builders work on
    [compression_indices] instead.  In the demo the sequence is [2, 1]. *)
Theorem recovery_indices_by_reset (reset : bool)
    (q_in q_latent q_refresh : gmap string nat) :
  let L := qubit_labeling reset q_in q_latent q_refresh in
  let natural := order_qubit_labels (merge_two_dicts q_latent q_refresh) in
  (if reset
   then recovery_indices L = natural ∧
        decode_side reset (compression_indices L) (recovery_indices L)
        = order_qubit_labels q_in
   else recovery_indices L = reverse natural ∧
        decode_side reset (compression_indices L) (recovery_indices L)
        = reverse natural) ∧
  (∀ ci ri param : loc,
     training_circuit_dag reset ci ri param
     = _training_circuit_dag param (if reset then ci else ri)) ∧
  (∀ (ci ri : loc) angle,
     map_state_prep reset ci ri angle
     = (sample ← new_ParamList [angle];
        sp ← _state_prep_circuit sample ci;
        sp_dag ← (sample ← new_ParamList [angle];
                  _state_prep_circuit_dag sample (if reset then ci else ri));
        mret (sp, sp_dag))) ∧
  recovery_indices
    (qubit_labeling Demo.reset Demo.q_in Demo.q_latent Demo.q_refresh)
  = [2; 1].
Proof.
  split_and!.
  - by destruct reset.
  - intros. apply training_circuit_dag_decode_side.
  - intros. apply map_state_prep_decode_side.
  - vm_compute. reflexivity.
Qed.

(** With reset, the sequence the decode-side circuits are built on is not the
    unreversed recovery ordering: on the demo mappings it is [0, 1], the
    recovery ordering is [1, 2]. *)
Lemma decode_side_not_recovery_under_reset :
  ¬ ∀ q_in q_latent q_refresh : gmap string nat,
      let L := qubit_labeling true q_in q_latent q_refresh in
      decode_side true (compression_indices L) (recovery_indices L)
      = order_qubit_labels (merge_two_dicts q_latent q_refresh).
Proof.
  intros H. specialize (H Demo.q_in Demo.q_latent Demo.q_refresh).
  vm_compute in H. discriminate H.
Qed.

(** Under reset the daggered training circuit of the demo is built on the
    compression indices [0, 1]; on the recovery indices [1, 2] it would act
    on other qubits. *)
Example demo_reset_decode_circuit :
  built (training_circuit_dag true 1 2 0) reset_world
    = Ok [CNOT 1 0; RY ((1#3) / 2) 0] ∧
  built (_training_circuit_dag 0 2) reset_world
    = Ok [CNOT 2 1; RY ((1#3) / 2) 1] ∧
  built (training_circuit_dag false 1 2 0) demo_world
    = Ok [CNOT 1 2; RY ((1#3) / 2) 2].
Proof. split_and!; reflexivity. Qed.

(** C10: the reversal applied without reset is a mere rearrangement: the
    reversed sequence is a permutation of the ordered one, both list the
    index of every label of the merged latent+refresh mapping once,
    positions are mirrored, and reversing once more restores the ordered
    sequence.  When the merged mapping gives no index to two labels, each of
    its indices is in either sequence exactly once. *)
Theorem recovery_reversal_permutation
    (q_in q_latent q_refresh : gmap string nat) :
  let merged := merge_two_dicts q_latent q_refresh in
  let natural := order_qubit_labels merged in
  let used := recovery_indices (qubit_labeling false q_in q_latent q_refresh) in
  used = reverse natural ∧
  used ≡ₚ natural ∧
  natural ≡ₚ indices merged ∧ used ≡ₚ indices merged ∧
  (∀ j, j < length natural →
        used !! j = natural !! (length natural - S j)) ∧
  reverse used = natural ∧
  (qubit_mapping merged →
   NoDup natural ∧ NoDup used ∧
   ∀ k i, merged !! k = Some i → i ∈ natural ∧ i ∈ used).
Proof.
  intros merged natural used.
  assert (used = reverse natural) as Hused by done.
  assert (natural ≡ₚ indices merged) as Hnat
    by apply order_qubit_labels_indices.
  rewrite Hused. split_and!.
  - done.
  - apply reverse_Permutation.
  - done.
  - by rewrite reverse_Permutation.
  - intros j Hj. by rewrite reverse_lookup.
  - apply reverse_involutive.
  - intros Hinv. split_and!.
    + by rewrite Hnat.
    + by rewrite reverse_Permutation, Hnat.
    + intros k i Hk. rewrite reverse_Permutation, Hnat.
      split; apply elem_of_indices; eauto.
Qed.

Lemma recovery_reversal_permutation_witness :
  let natural :=
    order_qubit_labels (merge_two_dicts Demo.q_latent Demo.q_refresh) in
  let used := recovery_indices
    (qubit_labeling false Demo.q_in Demo.q_latent Demo.q_refresh) in
  natural = [1; 2] ∧ used = [2; 1] ∧ used ≡ₚ natural ∧ reverse used = natural ∧
  NoDup natural ∧ NoDup used.
Proof.
  intros natural used.
  assert (qubit_mapping (merge_two_dicts Demo.q_latent Demo.q_refresh)) as H.
  { apply (bool_decide_unpack _). vm_compute. exact I. }
  destruct (recovery_reversal_permutation Demo.q_in Demo.q_latent
              Demo.q_refresh) as (_ & Hperm & _ & _ & _ & Hrev & Hnd).
  destruct (Hnd H) as (Hnat & Hused & _).
  split_and!;
    [vm_compute; reflexivity..|exact Hperm|exact Hrev|exact Hnat|exact Hused].
Defined.

(** ** The program logic of the store *)

Section wp_rules.

Context {A B : Type}.

Lemma wp_bind (m : M A) (k : A → M B) Q w :
  wp m (λ r w', match r with
                | Ok a => wp (k a) Q w'
                | Raise e => Q (Raise e) w'
                end) w →
  wp (m ≫= k) Q w.
Proof.
  unfold wp, mbind, M_bind. by destruct (m w) as [[a|e] w'].
Qed.

Lemma wp_ret (a : A) (Q : outcome A → world → Prop) w :
  Q (Ok a) w → wp (mret a) Q w.
Proof. done. Qed.

End wp_rules.

Lemma wp_new_Program gs Q w :
  Q (Ok (length (heap w))) (set_heap (heap w ++ [ProgramObj gs]) w) →
  wp (new_Program gs) Q w.
Proof. done. Qed.

Lemma wp_new_ParamList xs Q w :
  Q (Ok (length (heap w))) (set_heap (heap w ++ [ParamList xs]) w) →
  wp (new_ParamList xs) Q w.
Proof. done. Qed.

(** Reading an item leaves the world as it is, whatever comes out. *)
Lemma wp_getitem_param l i Q w :
  (∀ r, Q r w) → wp (getitem_param l i) Q w.
Proof.
  intros HQ. unfold wp, getitem_param. repeat case_match; apply HQ.
Qed.

Lemma wp_getitem_index l i Q w :
  (∀ r, Q r w) → wp (getitem_index l i) Q w.
Proof.
  intros HQ. unfold wp, getitem_index. repeat case_match; apply HQ.
Qed.

Lemma wp_iadd c p (Q : outcome () → world → Prop) w :
  Q (Raise TypeError) w →
  (∀ gs hs,
     heap w !! c = Some (ProgramObj gs) → heap w !! p = Some (ProgramObj hs) →
     Q (Ok ()) (set_heap (<[c := ProgramObj (gs ++ hs)]> (heap w)) w)) →
  wp (iadd c p) Q w.
Proof.
  intros Hraise Hok. unfold wp, iadd.
  destruct (heap w !! c) as [[| |gs]|] eqn:Hc; try exact Hraise.
  destruct (heap w !! p) as [[| |hs]|] eqn:Hp; try exact Hraise.
  by apply Hok.
Qed.

(** ** The frame of a builder *)

Lemma prefix_insert_ge {X} (l0 l : list X) c x :
  l0 `prefix_of` l → length l0 ≤ c → l0 `prefix_of` <[c := x]> l.
Proof.
  intros [k ->] Hc. rewrite insert_app_r_alt by done. by eexists.
Qed.

Lemma building_start w gs :
  building w (length (heap w)) (set_heap (heap w ++ [ProgramObj gs]) w).
Proof.
  split_and!; simpl.
  - by apply prefix_app_r.
  - done.
  - done.
  - exists gs. by apply list_lookup_middle.
Qed.

Lemma building_alloc w0 c w o :
  building w0 c w → building w0 c (set_heap (heap w ++ [o]) w).
Proof.
  intros (Hpre & Hcalls & Hc & gs & Hgs). split_and!; simpl.
  - by apply prefix_app_r.
  - done.
  - done.
  - exists gs. by apply lookup_app_l_Some.
Qed.

Lemma building_iadd w0 c w gs :
  building w0 c w →
  building w0 c (set_heap (<[c := ProgramObj gs]> (heap w)) w).
Proof.
  intros (Hpre & Hcalls & Hc & gs' & Hgs). split_and!; simpl.
  - by apply prefix_insert_ge.
  - done.
  - done.
  - exists gs. apply list_lookup_insert_eq. by eapply lookup_lt_Some.
Qed.

Lemma building_raise w0 c w e : building w0 c w → frame_post w0 (Raise e) w.
Proof. intros (? & ? & _). by split_and!. Qed.

Lemma building_return w0 c w : building w0 c w → frame_post w0 (Ok c) w.
Proof. intros (? & ? & ? & ?). by split_and!. Qed.

(** Walks through the body of a builder, carrying the invariant [Hb] of the
    program under construction from statement to statement. *)
Ltac frame_steps Hb :=
  lazymatch goal with
  | |- wp (mbind _ _) _ _ => apply wp_bind; frame_steps Hb
  | |- wp (getitem_param _ _) _ _ =>
      apply wp_getitem_param; intros [?|?];
      [frame_steps Hb | exact (building_raise _ _ _ _ Hb)]
  | |- wp (getitem_index _ _) _ _ =>
      apply wp_getitem_index; intros [?|?];
      [frame_steps Hb | exact (building_raise _ _ _ _ Hb)]
  | |- wp (new_Program ?gs) _ _ =>
      apply wp_new_Program;
      apply (building_alloc _ _ _ (ProgramObj gs)) in Hb; frame_steps Hb
  | |- wp (iadd _ _) _ _ =>
      apply wp_iadd;
      [exact (building_raise _ _ _ _ Hb)
      |let gs := fresh "gs" in let hs := fresh "hs" in
       intros gs hs _ _;
       apply (building_iadd _ _ _ (gs ++ hs)) in Hb; frame_steps Hb]
  | |- wp (mret _) _ _ => apply wp_ret; exact (building_return _ _ _ Hb)
  end.

Ltac builder_frame :=
  intros p i w;
  apply wp_bind, wp_new_Program;
  pose proof (building_start w []) as Hb;
  frame_steps Hb.

Lemma _state_prep_circuit_frame p i w :
  wp (_state_prep_circuit p i) (frame_post w) w.
Proof. revert p i w. unfold _state_prep_circuit. builder_frame. Qed.

Lemma _state_prep_circuit_dag_frame p i w :
  wp (_state_prep_circuit_dag p i) (frame_post w) w.
Proof. revert p i w. unfold _state_prep_circuit_dag. builder_frame. Qed.

Lemma _training_circuit_frame p i w :
  wp (_training_circuit p i) (frame_post w) w.
Proof. revert p i w. unfold _training_circuit. builder_frame. Qed.

Lemma _training_circuit_dag_frame p i w :
  wp (_training_circuit_dag p i) (frame_post w) w.
Proof. revert p i w. unfold _training_circuit_dag. builder_frame. Qed.

(** ** What the builders build *)

Lemma built_wp (m : M loc) w r :
  wp m (λ r' w', built_post r' w' = r) w → built m w = r.
Proof. unfold wp, built, built_post. by destruct (m w) as [[c|e] w']. Qed.

Lemma running_start w gs :
  running w (length (heap w)) gs (set_heap (heap w ++ [ProgramObj gs]) w).
Proof.
  split_and!; simpl; [by apply prefix_app_r|done|by apply list_lookup_middle].
Qed.

Lemma running_lookup w0 c gs w l o :
  running w0 c gs w → heap w0 !! l = Some o → heap w !! l = Some o.
Proof. intros (Hpre & _ & _) Hl. by eapply prefix_lookup_Some. Qed.

Lemma wp_getitem_param_running w0 c gs w l i xs Q :
  running w0 c gs w → heap w0 !! l = Some (ParamList xs) →
  Q (item xs i) w → wp (getitem_param l i) Q w.
Proof.
  intros Hrun Hl HQ. unfold wp, getitem_param, item in *.
  rewrite (running_lookup _ _ _ _ _ _ Hrun Hl). by destruct (xs !! i).
Qed.

Lemma wp_getitem_index_running w0 c gs w l i qs Q :
  running w0 c gs w → heap w0 !! l = Some (IndexList qs) →
  Q (item qs i) w → wp (getitem_index l i) Q w.
Proof.
  intros Hrun Hl HQ. unfold wp, getitem_index, item in *.
  rewrite (running_lookup _ _ _ _ _ _ Hrun Hl). by destruct (qs !! i).
Qed.

(** [circuit += Program(g)]: a temporary program is allocated and its gates
    are appended to the program under construction. *)
Lemma wp_append_gates {B} w0 c gs w hs (k : M B) Q :
  running w0 c gs w →
  (∀ w', running w0 c (gs ++ hs) w' → wp k Q w') →
  wp (p ← new_Program hs; iadd c p;; k) Q w.
Proof.
  intros (Hpre & Hc & Hgs) Hk.
  apply wp_bind, wp_new_Program, wp_bind.
  unfold wp at 1, iadd. simpl.
  rewrite (lookup_app_l_Some _ _ _ _ Hgs).
  rewrite list_lookup_middle by done. simpl.
  apply Hk. split_and!; simpl.
  - apply prefix_insert_ge; [by apply prefix_app_r|lia].
  - done.
  - apply list_lookup_insert_eq. rewrite length_app.
    apply lookup_lt_Some in Hgs. lia.
Qed.

Lemma wp_return_running w0 c gs w r :
  running w0 c gs w → r = Ok gs →
  wp (mret c) (λ r' w', built_post r' w' = r) w.
Proof.
  intros (_ & _ & Hgs) ->. unfold wp, built_post. simpl. by rewrite Hgs.
Qed.

(** Runs a builder on arguments whose values are known. *)
Ltac run_steps Hrun Hp Hi :=
  lazymatch goal with
  | |- wp (mbind _ (new_Program _)) _ _ =>
      eapply (wp_append_gates _ _ _ _ _ _ _ Hrun);
      clear Hrun; intros ? Hrun; run_steps Hrun Hp Hi
  | |- wp (mbind _ (getitem_param _ _)) _ _ =>
      apply wp_bind;
      apply (wp_getitem_param_running _ _ _ _ _ _ _ _ Hrun Hp);
      simpl; try done; run_steps Hrun Hp Hi
  | |- wp (mbind _ (getitem_index _ _)) _ _ =>
      apply wp_bind;
      apply (wp_getitem_index_running _ _ _ _ _ _ _ _ Hrun Hi);
      simpl; try done; run_steps Hrun Hp Hi
  | |- wp (mret _) _ _ => by apply (wp_return_running _ _ _ _ _ Hrun)
  | |- _ => idtac
  end.

Ltac run_builder Hp Hi :=
  apply built_wp; apply wp_bind, wp_new_Program;
  let Hrun := fresh "Hrun" in
  match goal with
  | |- context [set_heap (heap ?w ++ [ProgramObj ?gs]) ?w] =>
      pose proof (running_start w gs) as Hrun
  end;
  simpl; run_steps Hrun Hp Hi.

Lemma built_state_prep_circuit w p i xs qs :
  heap w !! p = Some (ParamList xs) → heap w !! i = Some (IndexList qs) →
  built (_state_prep_circuit p i) w
  = match xs, qs with
    | a :: _, q0 :: q1 :: _ => Ok [RY a q1; CNOT q1 q0]
    | _, _ => Raise IndexError
    end.
Proof.
  intros Hp Hi. unfold _state_prep_circuit.
  destruct xs as [|a xs], qs as [|q0 [|q1 qs]]; run_builder Hp Hi.
Qed.

Lemma built_state_prep_circuit_dag w p i xs qs :
  heap w !! p = Some (ParamList xs) → heap w !! i = Some (IndexList qs) →
  built (_state_prep_circuit_dag p i) w
  = match xs, qs with
    | a :: _, q0 :: q1 :: _ => Ok [CNOT q1 q0; RY (- a) q1]
    | _, _ => Raise IndexError
    end.
Proof.
  intros Hp Hi. unfold _state_prep_circuit_dag.
  destruct xs as [|a xs], qs as [|q0 [|q1 qs]]; run_builder Hp Hi.
Qed.

Lemma built_training_circuit w p i xs qs :
  heap w !! p = Some (ParamList xs) → heap w !! i = Some (IndexList qs) →
  built (_training_circuit p i) w
  = match xs, qs with
    | a :: _, q0 :: q1 :: _ => Ok [RY (- a / 2) q0; CNOT q1 q0]
    | _, _ => Raise IndexError
    end.
Proof.
  intros Hp Hi. unfold _training_circuit.
  destruct xs as [|a xs], qs as [|q0 [|q1 qs]]; run_builder Hp Hi.
Qed.

Lemma built_training_circuit_dag w p i xs qs :
  heap w !! p = Some (ParamList xs) → heap w !! i = Some (IndexList qs) →
  built (_training_circuit_dag p i) w
  = match xs, qs with
    | a :: _, q0 :: q1 :: _ => Ok [CNOT q1 q0; RY (a / 2) q0]
    | _, _ => Raise IndexError
    end.
Proof.
  intros Hp Hi. unfold _training_circuit_dag.
  destruct xs as [|a xs], qs as [|q0 [|q1 qs]]; run_builder Hp Hi.
Qed.

(** Negating the halved negated angle gives the halved angle back, as
    fractions and not only in value. *)
Lemma Qopp_half_opp (a : Q) : (- (- a / 2))%Q = (a / 2)%Q.
Proof.
  destruct a as [n d]. unfold Qdiv, Qmult, Qopp, Qinv. simpl.
  f_equal. lia.
Qed.

Example demo_state_prep_dag :
  built (_state_prep_circuit_dag 0 2) demo_world = Ok [CNOT 1 2; RY (- (1#3)) 1].
Proof. reflexivity. Qed.

Example demo_training :
  built (_training_circuit 0 1) demo_world = Ok [RY (- (1#3) / 2) 0; CNOT 1 0].
Proof. reflexivity. Qed.

(** C4: on a data sample or parameter vector and an index list, each
    daggered builder returns the gate sequence of its forward builder in
    reverse order with every angle negated (and raises where the forward
    builder raises): [CNOT(q1,q0); RY(-phi[0],q1)] against
    [RY(phi[0],q1); CNOT(q1,q0)], and [CNOT(q1,q0); RY(theta[0]/2,q0)]
    against [RY(-theta[0]/2,q0); CNOT(q1,q0)]. *)
Theorem dag_builders_reverse_and_negate (w : world) (p i : loc)
    (xs : list Q) (qs : list nat) :
  heap w !! p = Some (ParamList xs) →
  heap w !! i = Some (IndexList qs) →
  built (_state_prep_circuit_dag p i) w
    = outcome_map dagger (built (_state_prep_circuit p i) w) ∧
  built (_training_circuit_dag p i) w
    = outcome_map dagger (built (_training_circuit p i) w) ∧
  ∀ a xs' q0 q1 qs', xs = a :: xs' → qs = q0 :: q1 :: qs' →
    built (_state_prep_circuit p i) w = Ok [RY a q1; CNOT q1 q0] ∧
    built (_state_prep_circuit_dag p i) w = Ok [CNOT q1 q0; RY (- a) q1] ∧
    built (_training_circuit p i) w = Ok [RY (- a / 2) q0; CNOT q1 q0] ∧
    built (_training_circuit_dag p i) w = Ok [CNOT q1 q0; RY (a / 2) q0].
Proof.
  intros Hp Hi.
  rewrite (built_state_prep_circuit _ _ _ _ _ Hp Hi),
    (built_state_prep_circuit_dag _ _ _ _ _ Hp Hi),
    (built_training_circuit _ _ _ _ _ Hp Hi),
    (built_training_circuit_dag _ _ _ _ _ Hp Hi).
  split_and!.
  - by destruct xs as [|a xs], qs as [|q0 [|q1 qs]].
  - destruct xs as [|a xs], qs as [|q0 [|q1 qs]]; try done.
    simpl. unfold dagger. simpl. by rewrite Qopp_half_opp.
  - by intros a xs' q0 q1 qs' -> ->.
Qed.

Lemma dag_builders_reverse_and_negate_witness :
  built (_state_prep_circuit_dag 0 1) demo_world
    = outcome_map dagger (built (_state_prep_circuit 0 1) demo_world) ∧
  built (_training_circuit_dag 0 1) demo_world
    = outcome_map dagger (built (_training_circuit 0 1) demo_world) ∧
  built (_training_circuit_dag 0 1) demo_world
    = Ok [CNOT 1 0; RY ((1#3) / 2) 0].
Proof.
  destruct (dag_builders_reverse_and_negate demo_world 0 1 [(1#3)%Q] [0; 1])
    as (Hsp & Htr & Hex); [reflexivity..|].
  split_and!; [exact Hsp|exact Htr|].
  by destruct (Hex (1#3)%Q [] 0 1 [] eq_refl eq_refl) as (_ & _ & _ & ->).
Defined.

Lemma cancel_CNOT_pair l1 c t l2 :
  cancel_step (l1 ++ CNOT c t :: CNOT c t :: l2) (l1 ++ l2).
Proof. apply cancel_adjacent, inverse_CNOT. Qed.

Lemma cancel_RY_pair l1 a b q l2 :
  (a + b == 0)%Q → cancel_step (l1 ++ RY a q :: RY b q :: l2) (l1 ++ l2).
Proof. intros. by apply cancel_adjacent, inverse_RY. Qed.

(** C3: for a parameter vector with its parameter and an index list with at
    least two entries, the training circuit followed by its daggered
    circuit is RY(-theta[0]/2), CNOT, CNOT, RY(theta[0]/2) on the same
    qubits; the adjacent CNOTs and then the opposite rotations cancel, which
    leaves the empty circuit, and so does the composition in the other
    order. *)
Theorem training_circuit_cancels (w1 w2 : world) (theta1 i1 theta2 i2 : loc)
    (t : Q) (ts : list Q) (q0 q1 : nat) (qs : list nat) :
  heap w1 !! theta1 = Some (ParamList (t :: ts)) →
  heap w1 !! i1 = Some (IndexList (q0 :: q1 :: qs)) →
  heap w2 !! theta2 = Some (ParamList (t :: ts)) →
  heap w2 !! i2 = Some (IndexList (q0 :: q1 :: qs)) →
  ∃ fwd dag,
    built (_training_circuit theta1 i1) w1 = Ok fwd ∧
    built (_training_circuit_dag theta2 i2) w2 = Ok dag ∧
    fwd ++ dag = [RY (- t / 2) q0; CNOT q1 q0; CNOT q1 q0; RY (t / 2) q0] ∧
    cancels_to_identity (fwd ++ dag) ∧
    cancels_to_identity (dag ++ fwd).
Proof.
  intros Hp1 Hi1 Hp2 Hi2.
  exists [RY (- t / 2) q0; CNOT q1 q0], [CNOT q1 q0; RY (t / 2) q0].
  rewrite (built_training_circuit _ _ _ _ _ Hp1 Hi1),
    (built_training_circuit_dag _ _ _ _ _ Hp2 Hi2).
  assert (- t / 2 + t / 2 == 0)%Q as Hopp by field.
  assert (t / 2 + - t / 2 == 0)%Q as Hopp' by field.
  split_and!; [done..| |]; unfold cancels_to_identity; simpl.
  - eapply rtc_l; [apply (cancel_CNOT_pair [RY (- t / 2) q0])|]. simpl.
    eapply rtc_l; [by apply (cancel_RY_pair [])|]. done.
  - eapply rtc_l; [by apply (cancel_RY_pair [CNOT q1 q0])|]. simpl.
    eapply rtc_l; [apply (cancel_CNOT_pair [])|]. done.
Qed.

Lemma training_circuit_cancels_witness :
  ∃ fwd dag,
    built (_training_circuit 0 1) demo_world = Ok fwd ∧
    built (_training_circuit_dag 0 1) demo_world = Ok dag ∧
    fwd ++ dag = [RY (- (1#3) / 2) 0; CNOT 1 0; CNOT 1 0; RY ((1#3) / 2) 0] ∧
    cancels_to_identity (fwd ++ dag) ∧
    cancels_to_identity (dag ++ fwd).
Proof.
  apply (training_circuit_cancels demo_world demo_world 0 1 0 1
           (1#3)%Q [] 0 1 []); reflexivity.
Defined.

Lemma pure_construction_intro (b : builder)
    (f : list Q → list nat → outcome (list gate)) :
  (∀ p i w, wp (b p i) (frame_post w) w) →
  (∀ w p i xs qs,
     heap w !! p = Some (ParamList xs) → heap w !! i = Some (IndexList qs) →
     built (b p i) w = f xs qs) →
  (∀ xs qs, xs ≠ [] → 2 ≤ length qs → ∃ gs, f xs qs = Ok gs) →
  pure_construction b.
Proof.
  intros Hframe Hbuilt Hvalid. split.
  - intros p i w xs qs Hp Hi Hne Hlen.
    destruct (Hvalid xs qs Hne Hlen) as [gs Hf].
    pose proof (Hbuilt w p i xs qs Hp Hi) as Hb. rewrite Hf in Hb.
    pose proof (Hframe p i w) as Hpost.
    unfold wp, frame_post, built in *.
    destruct (b p i w) as [[c|e] w']; simpl in *; [|done].
    destruct Hpost as (Hpre & _ & Hc & gs' & Hgs').
    rewrite Hgs' in Hb. injection Hb as ->.
    exists c, gs. split_and!; [done|by apply lookup_ge_None|done|..];
      by eapply prefix_lookup_Some.
  - intros p i w. destruct (Hframe p i w) as (? & ? & _). done.
  - intros p i w c Hc. destruct (Hframe p i w) as (_ & _ & Hpost).
    by rewrite Hc in Hpost.
  - intros p1 i1 w1 p2 i2 w2 xs qs Hp1 Hp2 Hi1 Hi2.
    by rewrite (Hbuilt _ _ _ _ _ Hp1 Hi1), (Hbuilt _ _ _ _ _ Hp2 Hi2).
Qed.

(** A parameter list with an entry and an index list with two entries have
    a first parameter and two first qubits. *)
Lemma valid_arguments_inv (xs : list Q) (qs : list nat) :
  xs ≠ [] → 2 ≤ length qs →
  ∃ a xs' q0 q1 qs', xs = a :: xs' ∧ qs = q0 :: q1 :: qs'.
Proof.
  intros Hne Hlen. destruct xs as [|a xs']; [done|].
  destruct qs as [|q0 [|q1 qs']]; simpl in Hlen; [lia..|].
  by exists a, xs', q0, q1, qs'.
Qed.

(** C9: each of the four builders is a pure construction: a call on a
    parameter list with its parameter and an index list with two qubits
    returns a program that did not exist before, with its arguments as they
    were; every call, also one that raises, leaves its arguments and every
    program built earlier as they were and executes nothing; and calls on
    arguments of equal value yield equal gate sequences. *)
Theorem builders_pure : Forall pure_construction builders.
Proof.
  unfold builders. repeat (apply List.Forall_cons); [..|apply List.Forall_nil].
  - eapply pure_construction_intro;
      [apply _state_prep_circuit_frame|apply built_state_prep_circuit|].
    intros xs qs Hne Hlen.
    destruct (valid_arguments_inv xs qs Hne Hlen)
      as (a & xs' & q0 & q1 & qs' & -> & ->). by eexists.
  - eapply pure_construction_intro;
      [apply _state_prep_circuit_dag_frame
      |apply built_state_prep_circuit_dag|].
    intros xs qs Hne Hlen.
    destruct (valid_arguments_inv xs qs Hne Hlen)
      as (a & xs' & q0 & q1 & qs' & -> & ->). by eexists.
  - eapply pure_construction_intro;
      [apply _training_circuit_frame|apply built_training_circuit|].
    intros xs qs Hne Hlen.
    destruct (valid_arguments_inv xs qs Hne Hlen)
      as (a & xs' & q0 & q1 & qs' & -> & ->). by eexists.
  - eapply pure_construction_intro;
      [apply _training_circuit_dag_frame|apply built_training_circuit_dag|].
    intros xs qs Hne Hlen.
    destruct (valid_arguments_inv xs qs Hne Hlen)
      as (a & xs' & q0 & q1 & qs' & -> & ->). by eexists.
Qed.

(** A builder that only raises is no pure construction: it returns no
    circuit. *)
Example raising_builder_not_pure :
  ¬ pure_construction (λ _ _, raise IndexError).
Proof.
  intros [Hreturns _ _ _].
  destruct (Hreturns 0 1 demo_world [(1#3)%Q] [0; 1])
    as (c & gs & Hc & _); [reflexivity|reflexivity|discriminate|simpl; lia|].
  discriminate Hc.
Qed.

Lemma builders_pure_witness :
  ∃ c gs,
    (_training_circuit 0 1 demo_world).1 = Ok c ∧
    heap demo_world !! c = None ∧
    heap (_training_circuit 0 1 demo_world).2 !! c = Some (ProgramObj gs) ∧
    heap (_training_circuit 0 1 demo_world).2 !! 0
      = Some (ParamList [(1#3)%Q]) ∧
    heap (_training_circuit 0 1 demo_world).2 !! 1
      = Some (IndexList [0; 1]).
Proof.
  pose proof (Forall_lookup_1 _ _ 2 _training_circuit builders_pure eq_refl)
    as Hpure.
  apply (pure_returns _ Hpure 0 1 demo_world [(1#3)%Q] [0; 1]).
  - reflexivity.
  - reflexivity.
  - discriminate.
  - simpl. lia.
Defined.

(** ** The loss estimator *)

(** No outcome is counted more often than there were shots. *)
Lemma target_count_le_total counts target :
  target_count counts target ≤ total_counts counts.
Proof.
  unfold target_count, total_counts.
  destruct (counts !! target) as [c|] eqn:Hc; simpl; [|lia].
  rewrite (map_fold_delete_L _ _ target c counts); [lia| |done].
  intros. lia.
Qed.

Lemma empirical_probability_fraction tc n :
  0 < n →
  (empirical_probability tc n == Z.of_nat tc # Pos.of_nat n)%Q.
Proof.
  intros Hn. unfold empirical_probability.
  replace (Z.of_nat n) with (Z.pos (Pos.of_nat n))
    by (destruct n; [lia|by rewrite <-Pos.of_nat_succ, Zpos_P_of_succ_nat, Nat2Z.inj_succ]).
  by rewrite <-Qmake_Qdiv.
Qed.

Lemma sample_loss_fraction counts target n :
  0 < n →
  (sample_loss counts target n
   == - (Z.of_nat (target_count counts target) # Pos.of_nat n))%Q.
Proof.
  intros Hn. unfold sample_loss. case_decide as Hdeg.
  - destruct Hdeg as [Hz|Hz]; [lia|]. by rewrite Hz.
  - by rewrite empirical_probability_fraction.
Qed.

Lemma run_estimate_loss execute qae circuit gs w :
  heap w !! circuit = Some (ProgramObj gs) →
  estimate_loss execute qae circuit w
  = (Ok (sample_loss (execute (backend_calls w) gs (n_shots qae))
           (target qae) (n_shots qae)),
     World (heap w) (S (backend_calls w))).
Proof.
  intros Hc. unfold estimate_loss, run_backend, mbind, M_bind. by rewrite Hc.
Qed.

(** C5: for an execution of a built circuit with [n_shots > 0] shots whose
    counts sum to [n_shots], the loss the estimator returns is the negation
    of the empirical probability [target_count / n_shots]; it lies between
    -1 and 0, and it is -1 exactly when every shot gave the target. *)
Theorem estimate_loss_negated_probability
    (execute : nat → list gate → nat → gmap (list bool) nat)
    (qae : quantum_autoencoder) (circuit : loc) (gs : list gate) (w : world) :
  let counts := execute (backend_calls w) gs (n_shots qae) in
  let target_count := target_count counts (target qae) in
  heap w !! circuit = Some (ProgramObj gs) →
  0 < n_shots qae →
  well_formed_outcome counts (n_shots qae) →
  ∃ loss,
    (estimate_loss execute qae circuit w).1 = Ok loss ∧
    (loss == - empirical_probability target_count (n_shots qae))%Q ∧
    (-1 <= loss)%Q ∧ (loss <= 0)%Q ∧
    ((loss == -1)%Q ↔ target_count = n_shots qae).
Proof.
  intros counts tc Hc Hn Hwf.
  rewrite (run_estimate_loss _ _ _ _ _ Hc). simpl.
  fold counts. eexists. split; [done|].
  assert (tc ≤ n_shots qae) as Hle.
  { rewrite <-Hwf. apply target_count_le_total. }
  pose proof (sample_loss_fraction counts (target qae) _ Hn) as Hfrac.
  fold tc in Hfrac.
  assert (Z.pos (Pos.of_nat (n_shots qae)) = Z.of_nat (n_shots qae)) as Hpos.
  { destruct (n_shots qae) as [|n]; [lia|].
    by rewrite <-Pos.of_nat_succ, Zpos_P_of_succ_nat, Nat2Z.inj_succ. }
  split_and!.
  - by rewrite Hfrac, empirical_probability_fraction.
  - rewrite Hfrac. unfold Qle. simpl. lia.
  - rewrite Hfrac. unfold Qle. simpl. lia.
  - rewrite Hfrac. unfold Qeq. simpl. lia.
Qed.

Lemma estimate_loss_negated_probability_witness :
  ∃ loss,
    (estimate_loss stub_execute stub_qae 2 stub_world).1 = Ok loss ∧
    (loss == -1)%Q.
Proof.
  destruct (estimate_loss_negated_probability stub_execute stub_qae 2
              [RY (1#3) 1; CNOT 1 0] stub_world)
    as (loss & Hrun & _ & _ & _ & Hopt).
  - reflexivity.
  - simpl. lia.
  - vm_compute. reflexivity.
  - exists loss. split; [exact Hrun|]. apply Hopt. vm_compute. reflexivity.
Defined.

(** C6: whichever circuit is executed, when [n_shots] is 0 or the target
    outcome does not occur in the counts, the estimator returns the loss 0
    and raises nothing. *)
Theorem estimate_loss_degenerate
    (execute : nat → list gate → nat → gmap (list bool) nat)
    (qae : quantum_autoencoder) (circuit : loc) (gs : list gate) (w : world) :
  heap w !! circuit = Some (ProgramObj gs) →
  n_shots qae = 0 ∨
  target_count (execute (backend_calls w) gs (n_shots qae)) (target qae) = 0 →
  (estimate_loss execute qae circuit w).1 = Ok 0%Q.
Proof.
  intros Hc Hdeg. rewrite (run_estimate_loss _ _ _ _ _ Hc). simpl.
  unfold sample_loss. by rewrite decide_True.
Qed.

Lemma estimate_loss_degenerate_witness :
  (estimate_loss stub_execute
     {| n_params := 1; n_shots := 0; target := [false; false];
        train_indices := [0] |} 2 stub_world).1 = Ok 0%Q ∧
  (estimate_loss stub_execute
     {| n_params := 1; n_shots := 4; target := [true; true];
        train_indices := [0] |} 2 stub_world).1 = Ok 0%Q.
Proof.
  split.
  - apply (estimate_loss_degenerate stub_execute _ 2 [RY (1#3) 1; CNOT 1 0]).
    + reflexivity.
    + left. reflexivity.
  - apply (estimate_loss_degenerate stub_execute _ 2 [RY (1#3) 1; CNOT 1 0]).
    + reflexivity.
    + right. vm_compute. reflexivity.
Defined.

(** ** Optimization mode *)

(** C7: when the length of the parameter vector differs from the parameter
    count the configured ansatz expects, optimization mode raises a
    configuration error and the world is as it was: no execution has been
    issued to the backend. *)
Theorem train_rejects_malformed_parameters
    (execute : nat → list gate → nat → gmap (list bool) nat)
    (build_circuit : loc → nat → M loc)
    (minimize : (loc → M Q) → loc → M (loc * Q))
    (qae : quantum_autoencoder) (theta : loc) (xs : list Q) (w : world) :
  heap w !! theta = Some (ParamList xs) →
  length xs ≠ n_params qae →
  train execute build_circuit minimize qae theta w
    = (Raise ConfigurationError, w) ∧
  backend_calls (train execute build_circuit minimize qae theta w).2
    = backend_calls w.
Proof.
  intros Htheta Hlen.
  assert (train execute build_circuit minimize qae theta w
          = (Raise ConfigurationError, w)) as ->; [|done].
  unfold train, check_parameters, mbind, M_bind.
  rewrite Htheta. by rewrite decide_False.
Qed.

Lemma train_rejects_malformed_parameters_witness :
  train stub_execute stub_build_circuit stub_minimize stub_qae 0 stub_world
    = (Raise ConfigurationError, stub_world) ∧
  backend_calls
    (train stub_execute stub_build_circuit stub_minimize stub_qae 0
       stub_world).2 = 0.
Proof.
  apply (train_rejects_malformed_parameters stub_execute stub_build_circuit
           stub_minimize stub_qae 0 [(1#3)%Q; (1#5)%Q] stub_world).
  - reflexivity.
  - simpl. lia.
Defined.

(** With a parameter vector of the expected length the stub backend is
    called, once per training sample. *)
Example train_calls_backend :
  backend_calls
    (train stub_execute stub_build_circuit stub_minimize stub_qae 0
       (World [ParamList [(1#3)%Q]; IndexList [0; 1]] 0)).2 = 1.
Proof. reflexivity. Qed.

(** The reference ansatz itself reads [theta[0]] only: a longer vector is
    accepted as it is, an empty one raises an index error. *)
Example training_circuit_ignores_further_parameters :
  built (_training_circuit 0 1) stub_world
    = Ok [RY (- (1#3) / 2) 0; CNOT 1 0] ∧
  built (_training_circuit 0 1) (World [ParamList []; IndexList [0; 1]] 0)
    = Raise IndexError.
Proof. split; reflexivity. Qed.

(** ** The parameter scan *)

Section scan_facts.

Variable f : loc → M Q.

(** One round of the loop evaluates the loss at the candidate and goes on
    with the loss appended. *)
Lemma theta_scan_loop_cons angle theta_scan acc w :
  theta_scan_loop f (angle :: theta_scan) acc w
  = match loss_at f angle w with
    | (Ok loss, w') => theta_scan_loop f theta_scan (acc ++ [loss]) w'
    | (Raise e, w') => (Raise e, w')
    end.
Proof.
  unfold loss_at. simpl. unfold mbind, M_bind. simpl.
  by destruct (f _ _) as [[loss|e] w'].
Qed.

(** The losses collected before the loop started stay in front. *)
Lemma theta_scan_loop_acc theta_scan acc w :
  theta_scan_loop f theta_scan acc w
  = match theta_scan_loop f theta_scan [] w with
    | (Ok losses, w') => (Ok (acc ++ losses), w')
    | (Raise e, w') => (Raise e, w')
    end.
Proof.
  revert acc w. induction theta_scan as [|angle theta_scan IH]; intros acc w.
  - simpl. unfold mret, M_ret. by rewrite app_nil_r.
  - rewrite !theta_scan_loop_cons.
    destruct (loss_at f angle w) as [[loss|e] w']; [|done].
    rewrite (IH (acc ++ [loss])), (IH ([] ++ [loss])).
    destruct (theta_scan_loop f theta_scan [] w') as [[losses|e] w'']; [|done].
    by rewrite <-app_assoc.
Qed.

(** The world in which the candidate at position [i] is evaluated: the one
    the first [i] rounds leave behind. *)
Lemma theta_scan_loop_world angle theta_scan i w loss w' :
  loss_at f angle w = (Ok loss, w') →
  (theta_scan_loop f (take (S i) (angle :: theta_scan)) [] w).2
  = (theta_scan_loop f (take i theta_scan) [] w').2.
Proof.
  intros Hrun. simpl take. rewrite theta_scan_loop_cons, Hrun.
  rewrite theta_scan_loop_acc.
  by destruct (theta_scan_loop f (take i theta_scan) [] w') as [[?|?] ?].
Qed.

Lemma theta_scan_loop_in_order theta_scan w :
  (∀ i angle, theta_scan !! i = Some angle →
     ∃ loss,
       (loss_at f angle (theta_scan_loop f (take i theta_scan) [] w).2).1
       = Ok loss) →
  ∃ losses,
    (theta_scan_loop f theta_scan [] w).1 = Ok losses ∧
    length losses = length theta_scan ∧
    ∀ i angle, theta_scan !! i = Some angle →
      ∃ loss,
        losses !! i = Some loss ∧
        (loss_at f angle (theta_scan_loop f (take i theta_scan) [] w).2).1
        = Ok loss.
Proof.
  revert w. induction theta_scan as [|angle theta_scan IH]; intros w Hok.
  - exists []. split_and!; [done..|]. intros i angle Hi. by destruct i.
  - destruct (Hok 0 angle eq_refl) as [loss Hloss]. simpl in Hloss.
    destruct (loss_at f angle w) as [r w'] eqn:Hrun.
    simpl in Hloss. subst r.
    destruct (IH w') as (losses & Hrest & Hlen & Hpos).
    { intros i a Hi. destruct (Hok (S i) a Hi) as [l Hl].
      exists l. by rewrite <-(theta_scan_loop_world _ _ _ _ _ _ Hrun). }
    exists (loss :: losses). split_and!.
    + rewrite theta_scan_loop_cons, Hrun, theta_scan_loop_acc.
      destruct (theta_scan_loop f theta_scan [] w') as [[ls|e] w''];
        simpl in *; congruence.
    + simpl. by rewrite Hlen.
    + intros [|i] a Hi.
      * simpl in Hi. injection Hi as <-. exists loss. simpl.
        by rewrite Hrun.
      * destruct (Hpos i a Hi) as (l & Hl & Hval). exists l. split; [done|].
        by rewrite (theta_scan_loop_world _ _ _ _ _ _ Hrun).
Qed.

End scan_facts.

(** C8: when the engine evaluates every candidate of the sequence, the scan
    returns the candidates paired with their losses, one pair per candidate
    and in the order of the input: the loss in position [i] is the mean
    training loss the engine computes for the candidate in position [i],
    called once the candidates before it have been evaluated.  The loop
    calls nothing but the loss function. *)
Theorem landscape_scan_in_order (compute_loss_function : loc → M Q)
    (theta_scan : list Q) (w : world) :
  let world_before i :=
    (theta_scan_loop compute_loss_function (take i theta_scan) [] w).2 in
  (∀ i angle, theta_scan !! i = Some angle →
     ∃ loss,
       (loss_at compute_loss_function angle (world_before i)).1 = Ok loss) →
  ∃ pairs,
    (landscape_scan compute_loss_function theta_scan w).1 = Ok pairs ∧
    length pairs = length theta_scan ∧
    pairs.*1 = theta_scan ∧
    ∀ i angle, theta_scan !! i = Some angle →
      ∃ loss,
        pairs !! i = Some (angle, loss) ∧
        (loss_at compute_loss_function angle (world_before i)).1 = Ok loss.
Proof.
  intros world_before Hok.
  destruct (theta_scan_loop_in_order compute_loss_function theta_scan w Hok)
    as (losses & Hrun & Hlen & Hpos).
  exists (zip theta_scan losses). split_and!.
  - unfold landscape_scan, mbind, M_bind.
    destruct (theta_scan_loop compute_loss_function theta_scan [] w)
      as [[ls|e] w']; simpl in *; congruence.
  - rewrite length_zip_with. lia.
  - apply fst_zip. lia.
  - intros i angle Hi. destruct (Hpos i angle Hi) as (loss & Hl & Hval).
    exists loss. split; [|done].
    apply lookup_zip_with_Some. by exists angle, loss.
Qed.

Lemma landscape_scan_in_order_witness :
  ∃ pairs,
    (landscape_scan
       (compute_loss_function stub_execute stub_build_circuit stub_qae)
       [(-1)%Q; 0%Q; 1%Q] stub_world).1 = Ok pairs ∧
    pairs.*1 = [(-1)%Q; 0%Q; 1%Q] ∧
    length pairs = 3.
Proof.
  destruct (landscape_scan_in_order
              (compute_loss_function stub_execute stub_build_circuit stub_qae)
              [(-1)%Q; 0%Q; 1%Q] stub_world) as (pairs & Hrun & Hlen & Hfst & _).
  - intros [|[|[|i]]] angle Hi; simpl in Hi; [| | |done];
      injection Hi as <-; eexists; vm_compute; reflexivity.
  - exists pairs. split_and!; [exact Hrun|exact Hfst|exact Hlen].
Defined.

Example demo_scan :
  (landscape_scan
     (compute_loss_function stub_execute stub_build_circuit stub_qae)
     [(-1)%Q; 0%Q; 1%Q] stub_world).1
  = Ok [((-1)%Q, (-4 # 4)%Q); (0%Q, (-4 # 4)%Q); (1%Q, (-4 # 4)%Q)].
Proof. vm_compute. reflexivity. Qed.

(** * Further properties of the notebook's code *)

(** ** Cancellation in context *)

Lemma cancel_step_context a l l' b :
  cancel_step l l' → cancel_step (a ++ l ++ b) (a ++ l' ++ b).
Proof.
  intros [l1 g h l2 Hinv].
  replace (a ++ (l1 ++ g :: h :: l2) ++ b)
    with ((a ++ l1) ++ g :: h :: (l2 ++ b)) by (by rewrite <-!app_assoc).
  replace (a ++ (l1 ++ l2) ++ b) with ((a ++ l1) ++ (l2 ++ b))
    by (by rewrite <-!app_assoc).
  by constructor.
Qed.

Lemma cancel_context a l l' b :
  rtc cancel_step l l' → rtc cancel_step (a ++ l ++ b) (a ++ l' ++ b).
Proof.
  induction 1 as [|x y z Hstep _ IH]; [done|].
  eapply rtc_l; [by apply cancel_step_context|done].
Qed.

(** Wrapping an inverse pair around a sequence that cancels. *)
Lemma cancels_wrap g h l :
  inverse_pair g h → cancels_to_identity l → cancels_to_identity (g :: l ++ [h]).
Proof.
  intros Hinv Hl. unfold cancels_to_identity.
  etrans; [apply (cancel_context [g] l [] [h] Hl)|]. simpl.
  apply rtc_once. by apply (cancel_adjacent [] g h []).
Qed.

Lemma cancels_app l1 l2 :
  cancels_to_identity l1 → cancels_to_identity l2 →
  cancels_to_identity (l1 ++ l2).
Proof.
  intros H1 H2. unfold cancels_to_identity.
  etrans; [apply (cancel_context [] l1 [] l2 H1)|]. done.
Qed.

(** A sequence that cancels can be taken out of the middle of another. *)
Lemma cancels_middle a l b :
  cancels_to_identity l → cancels_to_identity (a ++ b) →
  cancels_to_identity (a ++ l ++ b).
Proof.
  intros Hl Hab. unfold cancels_to_identity.
  etrans; [apply (cancel_context a l [] b Hl)|]. done.
Qed.

Lemma inverse_pair_dag_r g : inverse_pair g (gate_dag g).
Proof.
  destruct g as [a q|c t]; simpl; constructor. apply Qplus_opp_r.
Qed.

Lemma inverse_pair_dag_l g : inverse_pair (gate_dag g) g.
Proof.
  destruct g as [a q|c t]; simpl; constructor.
  rewrite Qplus_comm. apply Qplus_opp_r.
Qed.

(** Any gate sequence followed by its daggered sequence cancels, and so
    does the daggered sequence followed by the sequence. *)
Lemma cancels_dagger_r gs : cancels_to_identity (gs ++ dagger gs).
Proof.
  induction gs as [|g gs IH]; [apply rtc_refl|].
  unfold dagger in *. rewrite fmap_cons, reverse_cons. simpl.
  rewrite app_assoc. apply cancels_wrap; [apply inverse_pair_dag_r|done].
Qed.

Lemma cancels_dagger_l gs : cancels_to_identity (dagger gs ++ gs).
Proof.
  induction gs as [|g gs IH]; [apply rtc_refl|].
  unfold dagger in *. rewrite fmap_cons, reverse_cons.
  rewrite <-app_assoc. simpl.
  apply (cancels_middle _ [gate_dag g; g] gs); [|done].
  apply rtc_once. apply (cancel_adjacent [] _ _ []), inverse_pair_dag_l.
Qed.

(** A step needs two adjacent gates that are inverse to each other. *)
Lemma cancel_step_adjacent l l' :
  cancel_step l l' →
  ∃ j g h, l !! j = Some g ∧ l !! S j = Some h ∧ inverse_pair g h.
Proof.
  intros [l1 g h l2 Hinv]. exists (length l1), g, h. split_and!; [| |done].
  - by apply list_lookup_middle.
  - replace (l1 ++ g :: h :: l2) with ((l1 ++ [g]) ++ h :: l2)
      by (by rewrite <-app_assoc).
    apply list_lookup_middle. rewrite length_app. simpl. lia.
Qed.

(** ** The builders on short and on long arguments *)

Lemma builders_cases (P : builder → Prop) :
  P _state_prep_circuit → P _state_prep_circuit_dag →
  P _training_circuit → P _training_circuit_dag →
  ∀ b, b ∈ builders → P b.
Proof.
  intros H1 H2 H3 H4 b. unfold builders.
  rewrite !elem_of_cons, elem_of_nil.
  intros [->|[->|[->|[->|[]]]]]; done.
Qed.

(** What each of the four builders returns, in one statement: a rotation on
    one of the first two qubits of the index list and the CNOT from the
    second onto the first, in either order. *)
Lemma built_builders b :
  b ∈ builders →
  ∃ gates : Q → nat → nat → list gate,
    (∀ a q0 q1, ∃ x q,
       (gates a q0 q1 = [RY x q; CNOT q1 q0] ∨
        gates a q0 q1 = [CNOT q1 q0; RY x q]) ∧ (q = q0 ∨ q = q1)) ∧
    ∀ w p i xs qs,
      heap w !! p = Some (ParamList xs) → heap w !! i = Some (IndexList qs) →
      built (b p i) w
      = match xs, qs with
        | a :: _, q0 :: q1 :: _ => Ok (gates a q0 q1)
        | _, _ => Raise IndexError
        end.
Proof.
  revert b. apply builders_cases.
  - exists (λ a q0 q1, [RY a q1; CNOT q1 q0]). split.
    + intros. eexists _, _. split; [by left|by right].
    + apply built_state_prep_circuit.
  - exists (λ a q0 q1, [CNOT q1 q0; RY (- a) q1]). split.
    + intros. eexists _, _. split; [by right|by right].
    + apply built_state_prep_circuit_dag.
  - exists (λ a q0 q1, [RY (- a / 2) q0; CNOT q1 q0]). split.
    + intros. eexists _, _. split; [by left|by left].
    + apply built_training_circuit.
  - exists (λ a q0 q1, [CNOT q1 q0; RY (a / 2) q0]). split.
    + intros. eexists _, _. split; [by right|by left].
    + apply built_training_circuit_dag.
Qed.

(** X1: a builder raises an index error exactly when the parameter list is
    empty or the index list has fewer than two entries; on any other
    arguments it returns a circuit of two gates. *)
Theorem builders_raise_exactly_on_short_input (b : builder) (w : world)
    (p i : loc) (xs : list Q) (qs : list nat) :
  b ∈ builders →
  heap w !! p = Some (ParamList xs) →
  heap w !! i = Some (IndexList qs) →
  (built (b p i) w = Raise IndexError ∧ (xs = [] ∨ length qs < 2)) ∨
  (∃ g1 g2, built (b p i) w = Ok [g1; g2] ∧ xs ≠ [] ∧ 2 ≤ length qs).
Proof.
  intros Hb Hp Hi.
  destruct (built_builders b Hb) as (gates & Hgates & Hbuilt).
  rewrite (Hbuilt _ _ _ _ _ Hp Hi).
  destruct xs as [|a xs]; [left; split; [done|by left]|].
  destruct qs as [|q0 [|q1 qs]];
    [left; split; [done|right; simpl; lia]..|].
  right. destruct (Hgates a q0 q1) as (x & q & [-> | ->] & _);
    eexists _, _; (split_and!; [done|done|simpl; lia]).
Qed.

Lemma builders_raise_exactly_on_short_input_witness :
  built (_training_circuit 0 1) (World [ParamList []; IndexList [0; 1]] 0)
    = Raise IndexError ∧
  built (_state_prep_circuit_dag 0 1)
    (World [ParamList [(1#3)%Q]; IndexList [4]] 0) = Raise IndexError ∧
  ∃ g1 g2, built (_training_circuit 0 1) demo_world = Ok [g1; g2].
Proof.
  split_and!.
  - destruct (builders_raise_exactly_on_short_input _training_circuit
                (World [ParamList []; IndexList [0; 1]] 0) 0 1 [] [0; 1])
      as [[H _]|(g1 & g2 & _ & Hne & _)];
      [unfold builders; rewrite !elem_of_cons; auto
      |reflexivity|reflexivity|exact H|done].
  - destruct (builders_raise_exactly_on_short_input _state_prep_circuit_dag
                (World [ParamList [(1#3)%Q]; IndexList [4]] 0) 0 1
                [(1#3)%Q] [4])
      as [[H _]|(g1 & g2 & _ & _ & Hlen)];
      [unfold builders; rewrite !elem_of_cons; auto
      |reflexivity|reflexivity|exact H|simpl in Hlen; lia].
  - destruct (builders_raise_exactly_on_short_input _training_circuit
                demo_world 0 1 [(1#3)%Q] [0; 1])
      as [[_ [H|H]]|(g1 & g2 & H & _)];
      [unfold builders; rewrite !elem_of_cons; auto
      |reflexivity|reflexivity|done|simpl in H; lia|by exists g1, g2].
Defined.

(** X2: a builder reads [theta[0]] (or [phi[0]]) and the first two qubit
    indices only: entries after them change nothing and raise nothing. *)
Theorem builders_ignore_further_entries (b : builder) (w1 w2 : world)
    (p1 i1 p2 i2 : loc) (a : Q) (xs1 xs2 : list Q) (q0 q1 : nat)
    (qs1 qs2 : list nat) :
  b ∈ builders →
  heap w1 !! p1 = Some (ParamList (a :: xs1)) →
  heap w1 !! i1 = Some (IndexList (q0 :: q1 :: qs1)) →
  heap w2 !! p2 = Some (ParamList (a :: xs2)) →
  heap w2 !! i2 = Some (IndexList (q0 :: q1 :: qs2)) →
  ∃ gs, built (b p1 i1) w1 = Ok gs ∧ built (b p2 i2) w2 = Ok gs.
Proof.
  intros Hb Hp1 Hi1 Hp2 Hi2.
  destruct (built_builders b Hb) as (gates & _ & Hbuilt).
  exists (gates a q0 q1).
  by rewrite (Hbuilt _ _ _ _ _ Hp1 Hi1), (Hbuilt _ _ _ _ _ Hp2 Hi2).
Qed.

Lemma builders_ignore_further_entries_witness :
  ∃ gs,
    built (_training_circuit 0 1) demo_world = Ok gs ∧
    built (_training_circuit 0 1)
      (World [ParamList [(1#3)%Q; (7#2)%Q]; IndexList [0; 1; 5]] 0) = Ok gs.
Proof.
  apply (builders_ignore_further_entries _training_circuit demo_world
           (World [ParamList [(1#3)%Q; (7#2)%Q]; IndexList [0; 1; 5]] 0)
           0 1 0 1 (1#3)%Q [] [(7#2)%Q] 0 1 [] [5]);
    [unfold builders; rewrite !elem_of_cons; auto|reflexivity..].
Defined.

(** X3: a built circuit has one rotation and one CNOT; the CNOT is
    controlled by [qubit_indices[1]] and targets [qubit_indices[0]], and no
    gate acts on a qubit other than these two. *)
Theorem builders_act_on_first_two_qubits (b : builder) (w : world)
    (p i : loc) (xs : list Q) (q0 q1 : nat) (qs : list nat) (gs : list gate) :
  b ∈ builders →
  heap w !! p = Some (ParamList xs) →
  heap w !! i = Some (IndexList (q0 :: q1 :: qs)) →
  built (b p i) w = Ok gs →
  (∃ x q, gs ≡ₚ [RY x q; CNOT q1 q0]) ∧
  ∀ g q, g ∈ gs → q ∈ qubits_of g → q = q0 ∨ q = q1.
Proof.
  intros Hb Hp Hi Hgs.
  destruct (built_builders b Hb) as (gates & Hgates & Hbuilt).
  rewrite (Hbuilt _ _ _ _ _ Hp Hi) in Hgs.
  destruct xs as [|a xs]; [done|]. injection Hgs as <-.
  destruct (Hgates a q0 q1) as (x & q & [-> | ->] & Hq).
  - split; [by exists x, q|].
    intros g r. rewrite !elem_of_cons, elem_of_nil.
    intros [->|[->|[]]]; simpl; rewrite ?elem_of_cons, elem_of_nil;
      intuition congruence.
  - split; [exists x, q; apply Permutation_swap|].
    intros g r. rewrite !elem_of_cons, elem_of_nil.
    intros [->|[->|[]]]; simpl; rewrite ?elem_of_cons, elem_of_nil;
      intuition congruence.
Qed.

Lemma builders_act_on_first_two_qubits_witness :
  (∃ x q, [CNOT 1 2; RY ((1#3) / 2) 2] ≡ₚ [RY x q; CNOT 1 2]) ∧
  Forall (λ g, Forall (λ q, q = 2 ∨ q = 1) (qubits_of g))
    [CNOT 1 2; RY ((1#3) / 2) 2].
Proof.
  destruct (builders_act_on_first_two_qubits _training_circuit_dag demo_world
              0 2 [(1#3)%Q] 2 1 [] [CNOT 1 2; RY ((1#3) / 2) 2])
    as [Hshape Hsupport];
    [unfold builders; rewrite !elem_of_cons; auto|reflexivity..|].
  split; [exact Hshape|].
  apply Forall_forall. intros g Hg. apply Forall_forall. intros q Hq.
  exact (Hsupport g q Hg Hq).
Defined.

(** ** Circuits and their daggered circuits, composed *)

(** X4: on one index list the state preparation circuit followed by its
    daggered circuit is RY(phi[0]), CNOT, CNOT, RY(-phi[0]); it cancels to
    the empty circuit, and so does the composition in the other order. *)
Theorem state_prep_circuit_cancels (w1 w2 : world) (phi1 i1 phi2 i2 : loc)
    (a : Q) (xs : list Q) (q0 q1 : nat) (qs : list nat) :
  heap w1 !! phi1 = Some (ParamList (a :: xs)) →
  heap w1 !! i1 = Some (IndexList (q0 :: q1 :: qs)) →
  heap w2 !! phi2 = Some (ParamList (a :: xs)) →
  heap w2 !! i2 = Some (IndexList (q0 :: q1 :: qs)) →
  ∃ fwd dag,
    built (_state_prep_circuit phi1 i1) w1 = Ok fwd ∧
    built (_state_prep_circuit_dag phi2 i2) w2 = Ok dag ∧
    fwd ++ dag = [RY a q1; CNOT q1 q0; CNOT q1 q0; RY (- a) q1] ∧
    cancels_to_identity (fwd ++ dag) ∧
    cancels_to_identity (dag ++ fwd).
Proof.
  intros Hp1 Hi1 Hp2 Hi2.
  exists [RY a q1; CNOT q1 q0], (dagger [RY a q1; CNOT q1 q0]).
  rewrite (built_state_prep_circuit _ _ _ _ _ Hp1 Hi1),
    (built_state_prep_circuit_dag _ _ _ _ _ Hp2 Hi2).
  split_and!; [done..|apply cancels_dagger_r|apply cancels_dagger_l].
Qed.

Lemma state_prep_circuit_cancels_witness :
  ∃ fwd dag,
    built (_state_prep_circuit 0 1) demo_world = Ok fwd ∧
    built (_state_prep_circuit_dag 0 1) demo_world = Ok dag ∧
    fwd ++ dag = [RY (1#3) 1; CNOT 1 0; CNOT 1 0; RY (- (1#3)) 1] ∧
    cancels_to_identity (fwd ++ dag) ∧
    cancels_to_identity (dag ++ fwd).
Proof.
  apply (state_prep_circuit_cancels demo_world demo_world 0 1 0 1
           (1#3)%Q [] 0 1 []); reflexivity.
Defined.

(** X5: under reset all four circuits work on the compression indices,
    whatever the recovery indices are, and the pipeline of state
    preparation, training circuit, daggered training circuit and daggered
    state preparation cancels to the empty circuit for every data sample
    and every parameter. *)
Theorem encode_decode_cancels_under_reset (w : world)
    (ci ri phi theta : loc) (a t : Q) (xs ts : list Q) (q0 q1 : nat)
    (qs : list nat) :
  heap w !! ci = Some (IndexList (q0 :: q1 :: qs)) →
  heap w !! phi = Some (ParamList (a :: xs)) →
  heap w !! theta = Some (ParamList (t :: ts)) →
  ∃ sp tr tr_dag sp_dag,
    built (_state_prep_circuit phi ci) w = Ok sp ∧
    built (training_circuit ci theta) w = Ok tr ∧
    built (training_circuit_dag true ci ri theta) w = Ok tr_dag ∧
    built (_state_prep_circuit_dag phi (decode_side true ci ri)) w
      = Ok sp_dag ∧
    cancels_to_identity (sp ++ tr ++ tr_dag ++ sp_dag).
Proof.
  intros Hi Hp Ht.
  exists [RY a q1; CNOT q1 q0], [RY (- t / 2) q0; CNOT q1 q0],
    (dagger [RY (- t / 2) q0; CNOT q1 q0]), (dagger [RY a q1; CNOT q1 q0]).
  unfold training_circuit, training_circuit_dag, decode_side.
  rewrite (built_state_prep_circuit _ _ _ _ _ Hp Hi),
    (built_state_prep_circuit_dag _ _ _ _ _ Hp Hi),
    (built_training_circuit _ _ _ _ _ Ht Hi),
    (built_training_circuit_dag _ _ _ _ _ Ht Hi).
  split_and!; [done|done| |done|].
  - unfold dagger. simpl. by rewrite Qopp_half_opp.
  - rewrite (app_assoc [RY (- t / 2) q0; CNOT q1 q0]).
    apply cancels_middle; [apply cancels_dagger_r|apply cancels_dagger_r].
Qed.

Lemma encode_decode_cancels_under_reset_witness :
  ∃ sp tr tr_dag sp_dag,
    built (_state_prep_circuit 0 1) reset_world = Ok sp ∧
    built (training_circuit 1 0) reset_world = Ok tr ∧
    built (training_circuit_dag true 1 2 0) reset_world = Ok tr_dag ∧
    built (_state_prep_circuit_dag 0 (decode_side true 1 2)) reset_world
      = Ok sp_dag ∧
    cancels_to_identity (sp ++ tr ++ tr_dag ++ sp_dag).
Proof.
  apply (encode_decode_cancels_under_reset reset_world 1 2 0 0
           (1#3)%Q (1#3)%Q [] [] 0 1 []); reflexivity.
Defined.

(** A non-empty sequence without an adjacent inverse pair does not cancel. *)
Lemma stuck_not_identity l :
  l ≠ [] →
  (∀ j g h, l !! j = Some g → l !! S j = Some h → ¬ inverse_pair g h) →
  ¬ cancels_to_identity l.
Proof.
  intros Hne Hstuck Hrtc. apply rtc_inv in Hrtc as [->|(l' & Hstep & _)];
    [done|].
  destruct (cancel_step_adjacent _ _ Hstep) as (j & g & h & Hg & Hh & Hinv).
  exact (Hstuck j g h Hg Hh Hinv).
Qed.

Lemma forward_then_other_dag_stuck x y q r c0 c1 d0 d1 :
  (c0, c1) ≠ (d0, d1) →
  ¬ cancels_to_identity [RY x q; CNOT c1 c0; CNOT d1 d0; RY y r].
Proof.
  intros Hne. apply stuck_not_identity; [done|].
  intros [|[|[|j]]] g h Hg Hh Hinv; simpl in Hg, Hh; simplify_eq;
    inversion Hinv; simplify_eq.
Qed.

(** X6: without reset the daggered circuits work on the recovery indices;
    when these differ from the compression indices in one of their first
    two entries, neither the training circuit followed by its daggered
    circuit nor the state preparation followed by its daggered circuit
    cancels to the empty circuit. *)
Theorem dag_on_other_qubits_does_not_cancel (w : world)
    (ci ri p : loc) (a : Q) (xs : list Q) (c0 c1 d0 d1 : nat)
    (cq dq : list nat) :
  heap w !! ci = Some (IndexList (c0 :: c1 :: cq)) →
  heap w !! ri = Some (IndexList (d0 :: d1 :: dq)) →
  heap w !! p = Some (ParamList (a :: xs)) →
  (c0, c1) ≠ (d0, d1) →
  ∃ tr tr_dag sp sp_dag,
    built (training_circuit ci p) w = Ok tr ∧
    built (training_circuit_dag false ci ri p) w = Ok tr_dag ∧
    built (_state_prep_circuit p ci) w = Ok sp ∧
    built (_state_prep_circuit_dag p (decode_side false ci ri)) w
      = Ok sp_dag ∧
    ¬ cancels_to_identity (tr ++ tr_dag) ∧
    ¬ cancels_to_identity (sp ++ sp_dag).
Proof.
  intros Hci Hri Hp Hne.
  unfold training_circuit, training_circuit_dag, decode_side.
  rewrite (built_state_prep_circuit _ _ _ _ _ Hp Hci),
    (built_state_prep_circuit_dag _ _ _ _ _ Hp Hri),
    (built_training_circuit _ _ _ _ _ Hp Hci),
    (built_training_circuit_dag _ _ _ _ _ Hp Hri).
  eexists _, _, _, _. split_and!; [done..| |];
    simpl; by apply forward_then_other_dag_stuck.
Qed.

Lemma dag_on_other_qubits_does_not_cancel_witness :
  ∃ tr tr_dag sp sp_dag,
    built (training_circuit 1 0) demo_world = Ok tr ∧
    built (training_circuit_dag false 1 2 0) demo_world = Ok tr_dag ∧
    built (_state_prep_circuit 0 1) demo_world = Ok sp ∧
    built (_state_prep_circuit_dag 0 (decode_side false 1 2)) demo_world
      = Ok sp_dag ∧
    ¬ cancels_to_identity (tr ++ tr_dag) ∧
    ¬ cancels_to_identity (sp ++ sp_dag).
Proof.
  apply (dag_on_other_qubits_does_not_cancel demo_world 1 2 0
           (1#3)%Q [] 0 1 2 1 [] []); [reflexivity..|].
  intros H. injection H as H. lia.
Defined.

(** ** The data generation loop *)

Lemma extends_refl w : extends w w.
Proof. by split. Qed.

Lemma extends_trans w0 w1 w2 : extends w0 w1 → extends w1 w2 → extends w0 w2.
Proof.
  intros [Hp1 Hc1] [Hp2 Hc2]. split; [by etrans|congruence].
Qed.

Lemma extends_alloc w o : extends w (set_heap (heap w ++ [o]) w).
Proof. split; simpl; [by apply prefix_app_r|done]. Qed.

Lemma extends_lookup w0 w l o :
  extends w0 w → heap w0 !! l = Some o → heap w !! l = Some o.
Proof. intros [Hpre _] Hl. by eapply prefix_lookup_Some. Qed.

Lemma extends_length w0 w : extends w0 w → length (heap w0) ≤ length (heap w).
Proof. intros [Hpre _]. by apply prefix_length. Qed.

Lemma builders_frame b :
  b ∈ builders → ∀ p i w, wp (b p i) (frame_post w) w.
Proof.
  revert b.
  apply (builders_cases (λ b, ∀ p i w, wp (b p i) (frame_post w) w));
    intros p i w.
  - apply _state_prep_circuit_frame.
  - apply _state_prep_circuit_dag_frame.
  - apply _training_circuit_frame.
  - apply _training_circuit_dag_frame.
Qed.

(** A call of a builder extends the world, also when it raises. *)
Lemma builder_extends b p i w : b ∈ builders → extends w (b p i w).2.
Proof.
  intros Hb. destruct (builders_frame b Hb p i w) as (Hpre & Hcalls & _).
  by split.
Qed.

(** A builder whose gate sequence is known returns a new program that
    holds it. *)
Lemma builder_returns b p i w gs :
  b ∈ builders → built (b p i) w = Ok gs →
  ∃ c w', b p i w = (Ok c, w') ∧ extends w w' ∧
          length (heap w) ≤ c < length (heap w') ∧
          heap w' !! c = Some (ProgramObj gs).
Proof.
  intros Hb Hbuilt.
  pose proof (builders_frame b Hb p i w) as Hframe.
  unfold wp, frame_post, built in *.
  destruct (b p i w) as [[c|e] w']; simpl in *; [|done].
  destruct Hframe as (Hpre & Hcalls & Hc & gs' & Hgs').
  rewrite Hgs' in Hbuilt. injection Hbuilt as ->.
  exists c, w'. split_and!; try done. by eapply lookup_lt_Some.
Qed.

Lemma builder_raises (b : builder) p i w :
  built (b p i) w = Raise IndexError → (b p i w).1 = Raise IndexError.
Proof.
  unfold built. destruct (b p i w) as [[c|e] w']; simpl;
    [|by intros [= ->]].
  by repeat case_match.
Qed.

Lemma run_bind {A B} (m : M A) (k : A → M B) w a w' :
  m w = (Ok a, w') → (m ≫= k) w = k a w'.
Proof. intros Hm. unfold mbind, M_bind. by rewrite Hm. Qed.

Lemma run_bind_raise {A B} (m : M A) (k : A → M B) w e w' :
  m w = (Raise e, w') → (m ≫= k) w = (Raise e, w').
Proof. intros Hm. unfold mbind, M_bind. by rewrite Hm. Qed.

Lemma state_prep_builders :
  _state_prep_circuit ∈ builders ∧ _state_prep_circuit_dag ∈ builders.
Proof. unfold builders. rewrite !elem_of_cons. auto. Qed.

(** One round of the loop on index lists with two entries: the two stored
    programs are new, distinct, and hold the state preparation of the
    sample on the compression indices and its daggered circuit on the
    decode-side indices. *)
Lemma map_state_prep_run reset ci ri angle w c0 c1 cq d0 d1 dq :
  heap w !! ci = Some (IndexList (c0 :: c1 :: cq)) →
  heap w !! decode_side reset ci ri = Some (IndexList (d0 :: d1 :: dq)) →
  ∃ sp dag w',
    map_state_prep reset ci ri angle w = (Ok (sp, dag), w') ∧
    extends w w' ∧
    length (heap w) ≤ sp ∧ sp < dag ∧ dag < length (heap w') ∧
    heap w' !! sp = Some (ProgramObj [RY angle c1; CNOT c1 c0]) ∧
    heap w' !! dag = Some (ProgramObj [CNOT d1 d0; RY (- angle) d1]).
Proof.
  intros Hci Hdi. rewrite map_state_prep_decode_side.
  destruct state_prep_builders as [Hfwd Hdag].
  set (w1 := set_heap (heap w ++ [ParamList [angle]]) w).
  assert (extends w w1) as Hw1 by apply extends_alloc.
  destruct (builder_returns _state_prep_circuit (length (heap w)) ci w1
              [RY angle c1; CNOT c1 c0] Hfwd)
    as (sp & w2 & Hrun2 & Hw2 & [Hsp_ge Hsp_lt] & Hsp).
  { apply built_state_prep_circuit with (xs := [angle])
      (qs := c0 :: c1 :: cq).
    - by apply list_lookup_middle.
    - by apply (extends_lookup w). }
  set (w3 := set_heap (heap w2 ++ [ParamList [angle]]) w2).
  assert (extends w2 w3) as Hw3 by apply extends_alloc.
  assert (extends w w3) as Hww3 by eauto using extends_trans.
  destruct (builder_returns _state_prep_circuit_dag (length (heap w2))
              (decode_side reset ci ri) w3
              [CNOT d1 d0; RY (- angle) d1] Hdag)
    as (dag & w4 & Hrun4 & Hw4 & [Hdag_ge Hdag_lt] & Hdg).
  { apply built_state_prep_circuit_dag with (xs := [angle])
      (qs := d0 :: d1 :: dq).
    - by apply list_lookup_middle.
    - by apply (extends_lookup w). }
  exists sp, dag, w4. split_and!.
  - rewrite (run_bind _ _ w (length (heap w)) w1) by done.
    rewrite (run_bind _ _ w1 sp w2) by done.
    rewrite (run_bind _ _ w2 dag w4);
      [done|by rewrite (run_bind _ _ w2 (length (heap w2)) w3)].
  - eauto using extends_trans.
  - subst w1. simpl in Hsp_ge. rewrite length_app in Hsp_ge. lia.
  - subst w3. simpl in Hdag_ge. rewrite length_app in Hdag_ge. lia.
  - done.
  - by apply (extends_lookup w2); [eauto using extends_trans|].
  - done.
Qed.

Lemma map_state_prep_extends reset ci ri angle w :
  extends w (map_state_prep reset ci ri angle w).2.
Proof.
  rewrite map_state_prep_decode_side.
  destruct state_prep_builders as [Hfwd Hdag].
  set (w1 := set_heap (heap w ++ [ParamList [angle]]) w).
  rewrite (run_bind _ _ w (length (heap w)) w1) by done.
  pose proof (builder_extends _state_prep_circuit (length (heap w)) ci w1 Hfwd)
    as Hw2.
  assert (extends w w1) as Hw1 by apply extends_alloc.
  unfold mbind at 1, M_bind at 1.
  destruct (_state_prep_circuit (length (heap w)) ci w1) as [[sp|e] w2];
    simpl in *; [|eauto using extends_trans].
  set (w3 := set_heap (heap w2 ++ [ParamList [angle]]) w2).
  assert (extends w2 w3) as Hw3 by apply extends_alloc.
  unfold mbind at 1, M_bind at 1.
  rewrite (run_bind _ _ w2 (length (heap w2)) w3) by done.
  pose proof (builder_extends _state_prep_circuit_dag (length (heap w2))
                (decode_side reset ci ri) w3 Hdag) as Hw4.
  destruct (_state_prep_circuit_dag _ _ w3) as [[dag|e] w4];
    simpl in *; eauto using extends_trans.
Qed.

Lemma data_generation_cons reset ci ri angle phi_list acc1 acc2 w :
  data_generation reset ci ri (angle :: phi_list) acc1 acc2 w
  = match map_state_prep reset ci ri angle w with
    | (Ok (sp, dag), w') =>
        data_generation reset ci ri phi_list (acc1 ++ [sp]) (acc2 ++ [dag]) w'
    | (Raise e, w') => (Raise e, w')
    end.
Proof.
  simpl. unfold mbind, M_bind.
  by destruct (map_state_prep reset ci ri angle w) as [[[sp dag]|e] w'].
Qed.

(** The loop on index lists with two entries, from any pair of lists
    collected so far. *)
Lemma data_generation_run reset ci ri c0 c1 cq d0 d1 dq phi_list :
  ∀ acc1 acc2 w,
    heap w !! ci = Some (IndexList (c0 :: c1 :: cq)) →
    heap w !! decode_side reset ci ri = Some (IndexList (d0 :: d1 :: dq)) →
    ∃ sps dags w',
      data_generation reset ci ri phi_list acc1 acc2 w
        = (Ok (acc1 ++ sps, acc2 ++ dags), w') ∧
      extends w w' ∧
      Forall2 (λ sp angle,
                 heap w' !! sp = Some (ProgramObj [RY angle c1; CNOT c1 c0]))
        sps phi_list ∧
      Forall2 (λ dag angle,
                 heap w' !! dag
                 = Some (ProgramObj [CNOT d1 d0; RY (- angle) d1]))
        dags phi_list ∧
      Forall (λ l, length (heap w) ≤ l < length (heap w')) (sps ++ dags) ∧
      NoDup (sps ++ dags).
Proof.
  induction phi_list as [|angle phi_list IH]; intros acc1 acc2 w Hci Hdi.
  - exists [], [], w. rewrite !app_nil_r.
    split_and!; first [done|apply extends_refl|constructor].
  - destruct (map_state_prep_run reset ci ri angle w _ _ _ _ _ _ Hci Hdi)
      as (sp & dag & w1 & Hrun1 & Hw1 & Hsp_ge & Hlt & Hdag_lt & Hsp & Hdag).
    destruct (IH (acc1 ++ [sp]) (acc2 ++ [dag]) w1)
      as (sps & dags & w' & Hrun & Hw' & Hsps & Hdags & Hbounds & Hnd).
    { by apply (extends_lookup w). }
    { by apply (extends_lookup w). }
    pose proof (extends_length _ _ Hw1) as Hlen1.
    pose proof (extends_length _ _ Hw') as Hlen'.
    exists (sp :: sps), (dag :: dags), w'. split_and!.
    + rewrite data_generation_cons, Hrun1, Hrun.
      by rewrite <-!app_assoc.
    + by eapply extends_trans.
    + constructor; [by apply (extends_lookup w1)|done].
    + constructor; [by apply (extends_lookup w1)|done].
    + rewrite Forall_app in Hbounds. destruct Hbounds as [Hb1 Hb2].
      apply Forall_app. split; constructor; try lia.
      * eapply Forall_impl; [exact Hb1|]. simpl. intros; lia.
      * eapply Forall_impl; [exact Hb2|]. simpl. intros; lia.
    + assert (∀ l, l ∈ sps ++ dags → length (heap w1) ≤ l) as Hnew.
      { intros l Hl. rewrite Forall_forall in Hbounds.
        by destruct (Hbounds l Hl). }
      assert ((sp :: sps) ++ dag :: dags ≡ₚ sp :: dag :: (sps ++ dags))
        as -> by (simpl; by rewrite <-Permutation_middle).
      apply NoDup_cons. split.
      { rewrite elem_of_cons. intros [->|Hin]; [lia|].
        apply Hnew in Hin. lia. }
      apply NoDup_cons. split; [|done].
      intros Hin. apply Hnew in Hin. lia.
Qed.

(** X7: for index lists with two entries the data generation cell stores
    one state preparation circuit and one daggered circuit per sample, in
    the order of [phi_list]: in position [k] the circuit
    [RY(phi_k, c1); CNOT(c1, c0)] on the compression indices and the circuit
    [CNOT(d1, d0); RY(-phi_k, d1)] on the indices of the decode side. *)
Theorem data_generation_circuits (reset : bool) (ci ri : loc)
    (c0 c1 : nat) (cq : list nat) (d0 d1 : nat) (dq : list nat)
    (phi_list : list Q) (w : world) :
  heap w !! ci = Some (IndexList (c0 :: c1 :: cq)) →
  heap w !! decode_side reset ci ri = Some (IndexList (d0 :: d1 :: dq)) →
  ∃ list_SP_circuits list_SP_circuits_dag w',
    data_generation reset ci ri phi_list [] [] w
      = (Ok (list_SP_circuits, list_SP_circuits_dag), w') ∧
    length list_SP_circuits = length phi_list ∧
    length list_SP_circuits_dag = length phi_list ∧
    ∀ k angle, phi_list !! k = Some angle →
      ∃ sp dag,
        list_SP_circuits !! k = Some sp ∧
        list_SP_circuits_dag !! k = Some dag ∧
        heap w' !! sp = Some (ProgramObj [RY angle c1; CNOT c1 c0]) ∧
        heap w' !! dag = Some (ProgramObj [CNOT d1 d0; RY (- angle) d1]).
Proof.
  intros Hci Hdi.
  destruct (data_generation_run reset ci ri _ _ _ _ _ _ phi_list [] [] w
              Hci Hdi) as (sps & dags & w' & Hrun & _ & Hsps & Hdags & _).
  exists sps, dags, w'. split_and!.
  - done.
  - by eapply Forall2_length.
  - by eapply Forall2_length.
  - intros k angle Hk.
    destruct (Forall2_lookup_r _ _ _ _ _ Hsps Hk) as (sp & Hsp & Hgs).
    destruct (Forall2_lookup_r _ _ _ _ _ Hdags Hk) as (dag & Hdag & Hds).
    by exists sp, dag.
Qed.

Lemma data_generation_circuits_witness :
  ∃ list_SP_circuits list_SP_circuits_dag w',
    data_generation false 1 2 [(1#3)%Q; (-1#2)%Q] [] [] demo_world
      = (Ok (list_SP_circuits, list_SP_circuits_dag), w') ∧
    length list_SP_circuits = 2 ∧
    ∃ dag,
      list_SP_circuits_dag !! 1 = Some dag ∧
      heap w' !! dag = Some (ProgramObj [CNOT 1 2; RY (- (-1#2)) 1]).
Proof.
  destruct (data_generation_circuits false 1 2 0 1 [] 2 1 []
              [(1#3)%Q; (-1#2)%Q] demo_world)
    as (sps & dags & w' & Hrun & Hlen & _ & Hpos); [reflexivity..|].
  exists sps, dags, w'. split_and!; [exact Hrun|exact Hlen|].
  destruct (Hpos 1 (-1#2)%Q eq_refl) as (sp & dag & _ & Hdag & _ & Hgs).
  by exists dag.
Defined.

(** X8: the programs the data generation cell stores are all new and no two
    of them are the same object: no stored circuit is shared between two
    samples or between the two lists. *)
Theorem data_generation_fresh (reset : bool) (ci ri : loc)
    (c0 c1 : nat) (cq : list nat) (d0 d1 : nat) (dq : list nat)
    (phi_list : list Q) (w : world) :
  heap w !! ci = Some (IndexList (c0 :: c1 :: cq)) →
  heap w !! decode_side reset ci ri = Some (IndexList (d0 :: d1 :: dq)) →
  ∃ list_SP_circuits list_SP_circuits_dag w',
    data_generation reset ci ri phi_list [] [] w
      = (Ok (list_SP_circuits, list_SP_circuits_dag), w') ∧
    NoDup (list_SP_circuits ++ list_SP_circuits_dag) ∧
    ∀ l, l ∈ list_SP_circuits ++ list_SP_circuits_dag →
         heap w !! l = None ∧ ∃ gs, heap w' !! l = Some (ProgramObj gs).
Proof.
  intros Hci Hdi.
  destruct (data_generation_run reset ci ri _ _ _ _ _ _ phi_list [] [] w
              Hci Hdi)
    as (sps & dags & w' & Hrun & _ & Hsps & Hdags & Hbounds & Hnd).
  exists sps, dags, w'. split_and!; [done..|].
  intros l Hl. split.
  - rewrite Forall_forall in Hbounds. destruct (Hbounds l Hl) as [Hge _].
    by apply lookup_ge_None.
  - apply elem_of_app in Hl as [Hl|Hl];
      apply list_elem_of_lookup in Hl as [k Hk].
    + destruct (Forall2_lookup_l _ _ _ _ _ Hsps Hk) as (angle & _ & Hgs).
      eauto.
    + destruct (Forall2_lookup_l _ _ _ _ _ Hdags Hk) as (angle & _ & Hgs).
      eauto.
Qed.

Lemma data_generation_fresh_witness :
  ∃ list_SP_circuits list_SP_circuits_dag w',
    data_generation false 1 2 [(1#3)%Q; (-1#2)%Q] [] [] demo_world
      = (Ok (list_SP_circuits, list_SP_circuits_dag), w') ∧
    NoDup (list_SP_circuits ++ list_SP_circuits_dag).
Proof.
  destruct (data_generation_fresh false 1 2 0 1 [] 2 1 []
              [(1#3)%Q; (-1#2)%Q] demo_world)
    as (sps & dags & w' & Hrun & Hnd & _); [reflexivity..|].
  by exists sps, dags, w'.
Defined.

Lemma data_generation_extends reset ci ri phi_list :
  ∀ acc1 acc2 w,
    extends w (data_generation reset ci ri phi_list acc1 acc2 w).2.
Proof.
  induction phi_list as [|angle phi_list IH]; intros acc1 acc2 w.
  - apply extends_refl.
  - rewrite data_generation_cons.
    pose proof (map_state_prep_extends reset ci ri angle w) as Hw1.
    destruct (map_state_prep reset ci ri angle w) as [[[sp dag]|e] w1];
      simpl in *; [|done].
    eapply extends_trans; [exact Hw1|apply IH].
Qed.

(** X9: whatever its arguments are, and also when a round raises, the data
    generation cell leaves every object that existed before it as it was
    and issues no execution to the backend. *)
Theorem data_generation_frame (reset : bool) (ci ri : loc)
    (phi_list : list Q) (list_SP_circuits list_SP_circuits_dag : list loc)
    (w : world) :
  let w' := (data_generation reset ci ri phi_list list_SP_circuits
               list_SP_circuits_dag w).2 in
  heap w `prefix_of` heap w' ∧
  backend_calls w' = backend_calls w ∧
  ∀ l o, heap w !! l = Some o → heap w' !! l = Some o.
Proof.
  intros w'.
  pose proof (data_generation_extends reset ci ri phi_list list_SP_circuits
                list_SP_circuits_dag w) as Hext.
  fold w' in Hext. destruct Hext as [Hpre Hcalls]. split_and!; [done..|].
  intros l o Hl. by eapply prefix_lookup_Some.
Qed.

Lemma map_state_prep_raises reset ci ri angle cq dq w :
  heap w !! ci = Some (IndexList cq) →
  heap w !! decode_side reset ci ri = Some (IndexList dq) →
  length cq < 2 ∨ length dq < 2 →
  (map_state_prep reset ci ri angle w).1 = Raise IndexError.
Proof.
  intros Hci Hdi Hshort. rewrite map_state_prep_decode_side.
  destruct state_prep_builders as [Hfwd Hdag].
  set (w1 := set_heap (heap w ++ [ParamList [angle]]) w).
  assert (extends w w1) as Hw1 by apply extends_alloc.
  rewrite (run_bind _ _ w (length (heap w)) w1) by done.
  assert (heap w1 !! length (heap w) = Some (ParamList [angle])) as Hs1
    by (by apply list_lookup_middle).
  pose proof (built_state_prep_circuit w1 _ ci [angle] cq Hs1
                (extends_lookup _ _ _ _ Hw1 Hci)) as Hbuilt.
  destruct (decide (length cq < 2)) as [Hc|Hc].
  - assert (built (_state_prep_circuit (length (heap w)) ci) w1
            = Raise IndexError) as Hraise
      by (rewrite Hbuilt; by destruct cq as [|? [|? ?]]; simpl in Hc; try lia).
    apply builder_raises in Hraise.
    unfold mbind at 1, M_bind at 1.
    by destruct (_state_prep_circuit _ _ w1) as [[sp|e] w2]; simplify_eq/=.
  - destruct Hshort as [?|Hd]; [done|].
    destruct cq as [|c0 [|c1 cq]]; simpl in Hc; try lia.
    destruct (builder_returns _state_prep_circuit _ ci w1 _ Hfwd Hbuilt)
      as (sp & w2 & Hrun2 & Hw2 & _ & _).
    rewrite (run_bind _ _ w1 sp w2) by done.
    set (w3 := set_heap (heap w2 ++ [ParamList [angle]]) w2).
    assert (extends w w3) as Hw3
      by (eapply extends_trans; [|apply extends_alloc];
          by eapply extends_trans).
    assert (heap w3 !! length (heap w2) = Some (ParamList [angle])) as Hs3
      by (by apply list_lookup_middle).
    pose proof (built_state_prep_circuit_dag w3 _ _ [angle] dq Hs3
                  (extends_lookup _ _ _ _ Hw3 Hdi)) as Hbuilt'.
    assert (built (_state_prep_circuit_dag (length (heap w2))
                     (decode_side reset ci ri)) w3 = Raise IndexError)
      as Hraise
      by (rewrite Hbuilt'; by destruct dq as [|? [|? ?]]; simpl in Hd; try lia).
    apply builder_raises in Hraise.
    unfold mbind at 1, M_bind at 1.
    rewrite (run_bind _ _ w2 (length (heap w2)) w3) by done.
    by destruct (_state_prep_circuit_dag _ _ w3) as [[dag|e] w4];
      simplify_eq/=.
Qed.

(** X10: when the compression indices, or the index list of the decode
    side, have fewer than two entries, the data generation cell raises an
    index error in its first round and returns no list; with an empty
    [phi_list] the index lists are never read and the two lists come back
    as they were. *)
Theorem data_generation_raises_on_short_indices (reset : bool) (ci ri : loc)
    (cq dq : list nat) (angle : Q) (phi_list : list Q)
    (list_SP_circuits list_SP_circuits_dag : list loc) (w : world) :
  heap w !! ci = Some (IndexList cq) →
  heap w !! decode_side reset ci ri = Some (IndexList dq) →
  length cq < 2 ∨ length dq < 2 →
  (data_generation reset ci ri (angle :: phi_list) list_SP_circuits
     list_SP_circuits_dag w).1 = Raise IndexError ∧
  data_generation reset ci ri [] list_SP_circuits list_SP_circuits_dag w
    = (Ok (list_SP_circuits, list_SP_circuits_dag), w).
Proof.
  intros Hci Hdi Hshort. split; [|done].
  rewrite data_generation_cons.
  pose proof (map_state_prep_raises reset ci ri angle cq dq w Hci Hdi Hshort)
    as Hraise.
  by destruct (map_state_prep reset ci ri angle w) as [[[sp dag]|e] w'];
    simplify_eq/=.
Qed.

Lemma data_generation_raises_on_short_indices_witness :
  (data_generation false 1 2 [(1#3)%Q; (1#2)%Q] [] []
     (World [ParamList []; IndexList [0; 1]; IndexList [2]] 0)).1
  = Raise IndexError.
Proof.
  apply (data_generation_raises_on_short_indices false 1 2 [0; 1] [2]
           (1#3)%Q [(1#2)%Q] [] []
           (World [ParamList []; IndexList [0; 1]; IndexList [2]] 0)).
  - reflexivity.
  - reflexivity.
  - right. simpl. lia.
Defined.

(** X11: under reset, whatever the recovery indices are, every daggered
    circuit the data generation cell stores is the daggered sequence of the
    state preparation circuit stored in the same position, and the two in
    a row cancel to the empty circuit. *)
Theorem data_generation_reset_inverse (ci ri : loc) (c0 c1 : nat)
    (cq : list nat) (phi_list : list Q) (w : world) :
  heap w !! ci = Some (IndexList (c0 :: c1 :: cq)) →
  ∃ list_SP_circuits list_SP_circuits_dag w',
    data_generation true ci ri phi_list [] [] w
      = (Ok (list_SP_circuits, list_SP_circuits_dag), w') ∧
    ∀ k sp dag,
      list_SP_circuits !! k = Some sp →
      list_SP_circuits_dag !! k = Some dag →
      ∃ gs,
        heap w' !! sp = Some (ProgramObj gs) ∧
        heap w' !! dag = Some (ProgramObj (dagger gs)) ∧
        cancels_to_identity (gs ++ dagger gs).
Proof.
  intros Hci.
  destruct (data_generation_run true ci ri c0 c1 cq c0 c1 cq phi_list [] [] w
              Hci Hci) as (sps & dags & w' & Hrun & _ & Hsps & Hdags & _).
  exists sps, dags, w'. split; [done|].
  intros k sp dag Hsp Hdag.
  destruct (Forall2_lookup_l _ _ _ _ _ Hsps Hsp) as (angle & Hk & Hgs).
  destruct (Forall2_lookup_l _ _ _ _ _ Hdags Hdag) as (angle' & Hk' & Hds).
  assert (angle' = angle) as -> by congruence.
  exists [RY angle c1; CNOT c1 c0]. split_and!; [done|done|].
  apply cancels_dagger_r.
Qed.

Lemma data_generation_reset_inverse_witness :
  ∃ list_SP_circuits list_SP_circuits_dag w',
    data_generation true 1 7 [(1#3)%Q; (-1#2)%Q] [] [] reset_world
      = (Ok (list_SP_circuits, list_SP_circuits_dag), w') ∧
    length list_SP_circuits = 2.
Proof.
  destruct (data_generation_reset_inverse 1 7 0 1 [] [(1#3)%Q; (-1#2)%Q]
              reset_world) as (sps & dags & w' & Hrun & _); [reflexivity|].
  exists sps, dags, w'. split; [exact Hrun|].
  vm_compute in Hrun. by injection Hrun as <- _ _.
Defined.

(** ** The scan loop, in parts and on failure *)

Section scan_composition.

Variable f : loc → M Q.

Lemma landscape_scan_unfold theta_scan w :
  landscape_scan f theta_scan w
  = match theta_scan_loop f theta_scan [] w with
    | (Ok losses, w') => (Ok (zip theta_scan losses), w')
    | (Raise e, w') => (Raise e, w')
    end.
Proof.
  unfold landscape_scan, mbind, M_bind.
  by destruct (theta_scan_loop f theta_scan [] w) as [[losses|e] w'].
Qed.

Lemma theta_scan_loop_app l1 l2 w :
  theta_scan_loop f (l1 ++ l2) [] w
  = match theta_scan_loop f l1 [] w with
    | (Ok losses1, w1) =>
        match theta_scan_loop f l2 [] w1 with
        | (Ok losses2, w2) => (Ok (losses1 ++ losses2), w2)
        | (Raise e, w2) => (Raise e, w2)
        end
    | (Raise e, w1) => (Raise e, w1)
    end.
Proof.
  revert w. induction l1 as [|angle l1 IH]; intros w.
  - simpl. by destruct (theta_scan_loop f l2 [] w) as [[?|?] ?].
  - rewrite <-app_comm_cons, !theta_scan_loop_cons.
    destruct (loss_at f angle w) as [[loss|e] w0]; [|done].
    rewrite (theta_scan_loop_acc f (l1 ++ l2)), (theta_scan_loop_acc f l1), IH.
    destruct (theta_scan_loop f l1 [] w0) as [[losses1|e] w1]; [|done].
    by destruct (theta_scan_loop f l2 [] w1) as [[losses2|e] w2].
Qed.

Lemma theta_scan_loop_length theta_scan w losses w' :
  theta_scan_loop f theta_scan [] w = (Ok losses, w') →
  length losses = length theta_scan.
Proof.
  revert w losses w'.
  induction theta_scan as [|angle theta_scan IH]; intros w losses w'.
  - simpl. by intros [= <- _].
  - rewrite theta_scan_loop_cons.
    destruct (loss_at f angle w) as [[loss|e] w0]; [|done].
    rewrite theta_scan_loop_acc.
    destruct (theta_scan_loop f theta_scan [] w0) as [[ls|e] w1] eqn:Hrest;
      [|done].
    intros [= <- _]. simpl. f_equal. by eapply IH.
Qed.

End scan_composition.

(** X12: a scan over two sequences in a row is the scan over the first
    followed, in the world it leaves, by the scan over the second, with the
    pairs of the first in front; a failure in either part is the failure of
    the whole. *)
Theorem landscape_scan_app (compute_loss_function : loc → M Q)
    (l1 l2 : list Q) (w : world) :
  landscape_scan compute_loss_function (l1 ++ l2) w
  = match landscape_scan compute_loss_function l1 w with
    | (Ok pairs1, w1) =>
        match landscape_scan compute_loss_function l2 w1 with
        | (Ok pairs2, w2) => (Ok (pairs1 ++ pairs2), w2)
        | (Raise e, w2) => (Raise e, w2)
        end
    | (Raise e, w1) => (Raise e, w1)
    end.
Proof.
  rewrite !landscape_scan_unfold, theta_scan_loop_app.
  destruct (theta_scan_loop compute_loss_function l1 [] w)
    as [[losses1|e] w1] eqn:H1; [|done].
  rewrite landscape_scan_unfold.
  destruct (theta_scan_loop compute_loss_function l2 [] w1)
    as [[losses2|e] w2]; [|done].
  f_equal. f_equal. apply zip_with_app.
  symmetry. by eapply theta_scan_loop_length.
Qed.

(** X13: when the evaluation of a candidate raises after all candidates
    before it were evaluated, the scan raises the same error in the world
    that evaluation leaves: no pair is returned and no later candidate is
    evaluated. *)
Theorem landscape_scan_stops_at_first_failure
    (compute_loss_function : loc → M Q) (theta_scan : list Q) (w : world)
    (i : nat) (angle : Q) (losses : list Q) (e : exn) :
  let before :=
    theta_scan_loop compute_loss_function (take i theta_scan) [] w in
  theta_scan !! i = Some angle →
  before.1 = Ok losses →
  (loss_at compute_loss_function angle before.2).1 = Raise e →
  landscape_scan compute_loss_function theta_scan w
  = (Raise e, (loss_at compute_loss_function angle before.2).2).
Proof.
  intros before Hi Hbefore Hraise. subst before.
  assert (theta_scan = take i theta_scan ++ angle :: drop (S i) theta_scan)
    as Hsplit by (symmetry; by apply take_drop_middle).
  destruct (theta_scan_loop compute_loss_function (take i theta_scan) [] w)
    as [r wi] eqn:Hb.
  simpl in *. subst r.
  assert (theta_scan_loop compute_loss_function theta_scan [] w
          = (Raise e, (loss_at compute_loss_function angle wi).2)) as Hloop.
  { rewrite Hsplit, theta_scan_loop_app, Hb, theta_scan_loop_cons.
    by destruct (loss_at compute_loss_function angle wi) as [[l|e'] w'];
      simplify_eq/=. }
  by rewrite landscape_scan_unfold, Hloop.
Qed.

Lemma landscape_scan_stops_at_first_failure_witness :
  landscape_scan stub_partial_loss [1%Q; (-1)%Q; 2%Q] stub_world
  = (Raise ConfigurationError,
     World (heap stub_world ++ [ParamList [1%Q]; ParamList [(-1)%Q]]) 0).
Proof.
  rewrite (landscape_scan_stops_at_first_failure stub_partial_loss
             [1%Q; (-1)%Q; 2%Q] stub_world 1 (-1)%Q [(-1)%Q]
             ConfigurationError); reflexivity.
Defined.

(** X14: when every evaluation of the loss function returns, keeps an
    invariant of the world and issues [k] executions, the scan returns,
    keeps the invariant and issues [k] executions per candidate. *)
Theorem landscape_scan_backend_calls (compute_loss_function : loc → M Q)
    (I : world → Prop) (k : nat) (theta_scan : list Q) (w : world) :
  I w →
  (∀ angle w0, I w0 →
     ∃ loss,
       (loss_at compute_loss_function angle w0).1 = Ok loss ∧
       I (loss_at compute_loss_function angle w0).2 ∧
       backend_calls (loss_at compute_loss_function angle w0).2
       = backend_calls w0 + k) →
  ∃ pairs,
    (landscape_scan compute_loss_function theta_scan w).1 = Ok pairs ∧
    I (landscape_scan compute_loss_function theta_scan w).2 ∧
    backend_calls (landscape_scan compute_loss_function theta_scan w).2
    = backend_calls w + k * length theta_scan.
Proof.
  intros HI Hstep. rewrite landscape_scan_unfold.
  assert (∃ losses,
            (theta_scan_loop compute_loss_function theta_scan [] w).1
            = Ok losses ∧
            I (theta_scan_loop compute_loss_function theta_scan [] w).2 ∧
            backend_calls
              (theta_scan_loop compute_loss_function theta_scan [] w).2
            = backend_calls w + k * length theta_scan)
    as (losses & Hrun & HI' & Hcalls).
  { clear -HI Hstep. revert w HI.
    induction theta_scan as [|angle theta_scan IH]; intros w HI.
    - exists []. simpl. split_and!; [done..|lia].
    - destruct (Hstep angle w HI) as (loss & Hloss & HI1 & Hc1).
      rewrite theta_scan_loop_cons.
      destruct (loss_at compute_loss_function angle w) as [r w1].
      simpl in *. subst r. rewrite theta_scan_loop_acc.
      destruct (IH w1 HI1) as (losses & Hrun & HI' & Hcalls).
      destruct (theta_scan_loop compute_loss_function theta_scan [] w1)
        as [r w2]. simpl in *. subst r.
      exists ([loss] ++ losses). split_and!; [done..|]. simpl. lia. }
  destruct (theta_scan_loop compute_loss_function theta_scan [] w) as [r w'].
  simpl in *. subst r. by eexists.
Qed.

Lemma landscape_scan_backend_calls_witness :
  ∃ pairs,
    (landscape_scan stub_counting_loss [1%Q; (-1)%Q; 2%Q] stub_world).1
    = Ok pairs ∧
    backend_calls
      (landscape_scan stub_counting_loss [1%Q; (-1)%Q; 2%Q] stub_world).2
    = 0 + 2 * 3.
Proof.
  destruct (landscape_scan_backend_calls stub_counting_loss (λ _, True) 2
              [1%Q; (-1)%Q; 2%Q] stub_world) as (pairs & Hrun & _ & Hcalls).
  - exact I.
  - intros angle w0 _. exists 0%Q. simpl. split_and!; [reflexivity|exact I|lia].
  - exists pairs. split; [exact Hrun|exact Hcalls].
Defined.
